(** * Query facade of the authz keeper (x/authz/keeper/grpc_query.go)

    A shallow embedding of the three gRPC read operations [Grants],
    [IssuedGrants] and [ReceivedGrants] and of the parts of the keeper they
    call: the grant-key codec, the expiration-aware lookup, the prefix
    iterator of the store and the filtered pagination engine. *)

From Stdlib Require Import List ZArith Lia String Bool Sorted PeanoNat.
From Stdlib.Strings Require Import Byte.
Import ListNotations.

Local Open Scope string_scope.
Local Open Scope list_scope.

(** ** Bytes, keys and their order *)

Definition bytes := list byte.

(** [sdk.AccAddress] is a byte slice. *)
Definition AccAddress := bytes.

Definition bytes_eqb (a b : bytes) : bool :=
  if list_eq_dec byte_eq_dec a b then true else false.

(** Lexicographic order of byte strings, the order of the store's keys. *)
Fixpoint bytes_ltb (a b : bytes) : bool :=
  match a, b with
  | _, [] => false
  | [], _ :: _ => true
  | x :: a', y :: b' =>
      (to_N x <? to_N y)%N || ((to_N x =? to_N y)%N && bytes_ltb a' b')
  end.

Definition bytes_leb (a b : bytes) : bool := negb (bytes_ltb b a).

Definition bytes_lt (a b : bytes) : Prop := bytes_ltb a b = true.

(** [hasPrefix p k]: the key [k] starts with the bytes [p]. *)
Fixpoint hasPrefix (p k : bytes) : bool :=
  match p, k with
  | [], _ => true
  | _ :: _, [] => false
  | x :: p', y :: k' => Byte.eqb x y && hasPrefix p' k'
  end.

(** ** Errors

    The handlers return Go [error] values of two sorts: gRPC status errors
    built by [status.Errorf], and the errors of the collaborators (address
    parser, codec, Any packing), which the handlers did not build. *)

Inductive Code := InvalidArgument | NotFound | Internal.

Inductive error :=
| StatusError (c : Code) (msg : string)
| PlainError (msg : string).

Definition codeName (c : Code) : string :=
  match c with
  | InvalidArgument => "InvalidArgument"
  | NotFound => "NotFound"
  | Internal => "Internal"
  end.

(** [err.Error()]. *)
Definition errorString (e : error) : string :=
  match e with
  | StatusError c msg =>
      ("rpc error: code = " ++ codeName c ++ " desc = " ++ msg)%string
  | PlainError msg => msg
  end.

Definition isStatus (c : Code) (e : error) : Prop :=
  exists msg, e = StatusError c msg.

(** ** The collaborators

    The authorization payload, its [Any] wrapper, the address parser and
    formatter and the binary codec are outside the keeper; the handlers only
    call them. *)

Class PayloadTypes := {
  AuthorizationI : Type;
  Any : Type
}.

(** [authz.Grant]: the stored record. *)
Record Grant {P : PayloadTypes} := mkGrant {
  Authorization : Any;
  Expiration : option Z
}.

Class SDK {P : PayloadTypes} := {
  AccAddressFromBech32 : string -> error + AccAddress;
  AccAddressString : AccAddress -> string;
  GetCachedValue : Any -> option AuthorizationI;
  NewAnyWithValue : option AuthorizationI -> error + Any;
  cdcUnmarshal : bytes -> error + Grant;
  (** An address that parsed is not empty: the parser rejects the empty
      address. *)
  AccAddressFromBech32_nonempty :
    forall s a, AccAddressFromBech32 s = inr a -> a <> []
}.

(** [GrantAuthorization]: a grant with both addresses attached. *)
Record GrantAuthorization {P : PayloadTypes} := mkGrantAuthorization {
  GA_Granter : string;
  GA_Grantee : string;
  GA_Authorization : Any;
  GA_Expiration : option Z
}.

(** ** GrantKey codec *)

(** The one-byte length of an address.  The contract of the codec covers
    addresses of at most 255 bytes; for a longer one the byte keeps the low
    eight bits of the length. *)
Definition lenByte (n : nat) : byte :=
  match Byte.of_nat (n mod 256) with
  | Some b => b
  | None => x00
  end.

(** Modelled from the spec: the length-prefixed address of the key (the
    keeper's key file is not part of the sources).  A non-empty address comes
    behind its one-byte length; an empty address emits nothing, so that a key
    built with it is a prefix for scanning. *)
Definition lengthPrefix (a : AccAddress) : bytes :=
  match a with
  | [] => []
  | _ :: _ => lenByte (List.length a) :: a
  end.

(** Modelled from the spec: [grantStoreKey] (the keeper's key file is not
    part of the sources).  It emits, in order, a 1-byte length and the
    grantee bytes, a 1-byte length and the granter bytes, then the raw bytes
    of the message type, with no trailing delimiter.  An empty address or
    an empty message type emits nothing, which makes the key a shorter
    prefix. *)
Definition grantStoreKey (grantee granter : AccAddress) (msgType : string)
  : bytes :=
  lengthPrefix grantee ++ lengthPrefix granter ++ list_byte_of_string msgType.

(** One length-prefixed field: the field and what follows it. *)
Definition readLengthPrefixed (key : bytes) : bytes * bytes :=
  match key with
  | [] => ([], [])
  | n :: rest => (firstn (Byte.to_nat n) rest, skipn (Byte.to_nat n) rest)
  end.

(** Modelled from the spec: [addressesFromGrantStoreKey] (the keeper's key
    file is not part of the sources), the inverse of [grantStoreKey] on the
    two addresses: it reads the two length-prefixed address fields and
    returns grantee, then granter. *)
Definition addressesFromGrantStoreKey (key : bytes) : AccAddress * AccAddress :=
  let '(grantee, rest) := readLengthPrefixed key in
  let '(granter, _) := readLengthPrefixed rest in
  (grantee, granter).

(** ** The store and its context *)

(** The ordered key-value store: its entries in ascending key order. *)
Definition KVStore := list (bytes * bytes).

Definition wfStore (s : KVStore) : Prop :=
  StronglySorted bytes_lt (map fst s).

Fixpoint storeGet (s : KVStore) (key : bytes) : option bytes :=
  match s with
  | [] => None
  | (k, v) :: s' => if bytes_eqb k key then Some v else storeGet s' key
  end.

(** Modelled from the spec: the prefix iterator of the store (store/prefix
    is not part of the sources).  It traverses, in key order (descending when
    [reverse]), the entries whose key shares the prefix [pfx], keys in full.
    A non-empty [start] is the cursor: the key that followed the last entry
    of the previous page, where the traversal resumes. *)
Definition storeIterate (pfx start : bytes) (reverse : bool) (s : KVStore)
  : list (bytes * bytes) :=
  let scope := filter (fun e => hasPrefix pfx (fst e)) s in
  if reverse then
    rev (match start with
         | [] => scope
         | _ :: _ => filter (fun e => bytes_leb (fst e) start) scope
         end)
  else
    match start with
    | [] => scope
    | _ :: _ => filter (fun e => bytes_leb start (fst e)) scope
    end.

(** What a handler did to the store, in order. *)
Inductive access :=
| ReadKey (key : bytes)
| ScanPrefix (pfx start : bytes) (reverse : bool).

(** [sdk.Context] as the handlers use it: the module's store, the block
    time, and the record of the store accesses made so far. *)
Record Context := mkContext {
  store : KVStore;
  blockTime : Z;
  accesses : list access
}.

(** The handlers thread the context. *)
Definition M (A : Type) : Type := Context -> A * Context.

Definition ret {A} (a : A) : M A := fun ctx => (a, ctx).

Definition bind {A B} (m : M A) (k : A -> M B) : M B :=
  fun ctx => let '(a, ctx') := m ctx in k a ctx'.

Notation "x <- m ;; k" := (bind m (fun x => k))
  (at level 61, m at next level, right associativity).

Definition logged (a : access) (ctx : Context) : Context :=
  {| store := store ctx; blockTime := blockTime ctx;
     accesses := accesses ctx ++ [a] |}.

Definition kvGet (key : bytes) : M (option bytes) :=
  fun ctx => (storeGet (store ctx) key, logged (ReadKey key) ctx).

Definition kvIterator (pfx start : bytes) (reverse : bool)
  : M (list (bytes * bytes)) :=
  fun ctx => (storeIterate pfx start reverse (store ctx),
              logged (ScanPrefix pfx start reverse) ctx).

Definition getBlockTime : M Z := fun ctx => (blockTime ctx, ctx).

(** ** Expiration-aware lookup *)

Definition GetAuthorization {P : PayloadTypes} {K : SDK} (g : Grant) : option AuthorizationI :=
  GetCachedValue (Authorization g).

(** [unmarshalAuthorization]: an authorization from a store value. *)
Definition unmarshalAuthorization {P : PayloadTypes} {K : SDK} (value : bytes) : error + Grant :=
  cdcUnmarshal value.

(** A grant is expired when its expiration is set and is not after the
    reference time. *)
Definition expired (expiration : option Z) (now : Z) : bool :=
  match expiration with
  | Some e => (e <=? now)%Z
  | None => false
  end.

(** Modelled from the spec: [GetCleanAuthorization] (the keeper file is not
    part of the sources).  It looks up the exact key; an absent record is not
    found; a present record is unmarshalled, and when its expiration is set
    and is not after the block time it is not found either, the record
    staying in the store; otherwise the authorization and the expiration are
    returned.  A record that does not unmarshal yields no authorization. *)
Definition GetCleanAuthorization {P : PayloadTypes} {K : SDK}
    (grantee granter : AccAddress) (msgType : string)
  : M (option AuthorizationI * option Z) :=
  bz <- kvGet (grantStoreKey grantee granter msgType) ;;
  match bz with
  | None => ret (None, None)
  | Some value =>
      match unmarshalAuthorization value with
      | inl _ => ret (None, None)
      | inr grant =>
          now <- getBlockTime ;;
          if expired (Expiration grant) now then ret (None, None)
          else ret (GetAuthorization grant, Expiration grant)
      end
  end.

(** ** Filtered pagination engine *)

(** Modelled from the spec: [query.PageRequest] (types/query is not part of
    the sources): the cursor key (empty: none), the number of hits to skip
    before the page, the limit ([None]: no limit), whether a total is
    requested, and the direction. *)
Record PageRequest := mkPageRequest {
  Key : bytes;
  Offset : nat;
  Limit : option nat;
  CountTotal : bool;
  Reverse : bool
}.

(** Modelled from the spec: [query.PageResponse]: the next key (empty when
    the traversal is exhausted) and the total, when requested. *)
Record PageResponse := mkPageResponse {
  NextKey : bytes;
  Total : option nat
}.

(** A nil page request: no cursor, no offset, no limit, ascending, no
    total. *)
Definition emptyPageRequest : PageRequest :=
  {| Key := []; Offset := 0; Limit := None; CountTotal := false;
     Reverse := false |}.

Definition pageRequestOrEmpty (pageRequest : option PageRequest) : PageRequest :=
  match pageRequest with
  | Some r => r
  | None => emptyPageRequest
  end.

(** The page is the [limit] hits that follow the first [offset] ones; it is
    full once [offset + limit] hits were counted. *)
Definition pageFull (offset : nat) (limit : option nat) (numHits : nat) : bool :=
  match limit with
  | Some n => Nat.leb (offset + n) numHits
  | None => false
  end.

(** The callback of the engine, as the handlers write it: key, value and the
    accumulate flag in, the hit flag or an error out.  The slice the Go
    closure appends to is the state [St] passed through. *)
Definition OnResult (St : Type) : Type :=
  bytes -> bytes -> bool -> St -> error + (bool * St).

(** Modelled from the spec: the loop of [query.FilteredPaginate] (types/query
    is not part of the sources).  Every entry of the traversal is handed to
    the callback.  The accumulate flag is unset for the first [offset] hits,
    which are skipped, and set from then on until [limit] entries were
    accumulated.  The first key met once the page is full is the next key; the
    traversal stops there unless a total is requested, in which case the
    remaining entries are visited with the flag unset.  An error of the
    callback aborts the scan. *)
Fixpoint paginateLoop {St : Type} (onResult : OnResult St)
    (offset : nat) (limit : option nat) (countTotal : bool)
    (entries : list (bytes * bytes))
    (numHits : nat) (nextKey : bytes) (acc : St)
  : error + (bytes * St) :=
  match entries with
  | [] => inr (nextKey, acc)
  | (k, v) :: rest =>
      if pageFull offset limit numHits then
        let nextKey' := match nextKey with [] => k | _ :: _ => nextKey end in
        if countTotal then
          match onResult k v false acc with
          | inl err => inl err
          | inr (_, acc') =>
              paginateLoop onResult offset limit countTotal rest
                numHits nextKey' acc'
          end
        else inr (nextKey', acc)
      else
        match onResult k v (Nat.leb offset numHits) acc with
        | inl err => inl err
        | inr (hit, acc') =>
            paginateLoop onResult offset limit countTotal rest
              (if hit then S numHits else numHits) nextKey acc'
        end
  end.

(** Modelled from the spec: the total of the page response, the number of
    entries in the prefix scope whatever the cursor, the offset and the
    limit. *)
Definition kvScopeSize (pfx : bytes) : M nat :=
  fun ctx => (List.length (storeIterate pfx [] false (store ctx)),
              logged (ScanPrefix pfx [] false) ctx).

(** Modelled from the spec: [query.FilteredPaginate] (types/query is not
    part of the sources): the traversal of the prefix scope from the cursor,
    the loop above, and the page response with the next key and, when
    requested, the total number of entries in the prefix scope. *)
Definition FilteredPaginate {St : Type} (pfx : bytes)
    (pageRequest : option PageRequest) (onResult : OnResult St) (acc0 : St)
  : M (error + (PageResponse * St)) :=
  let req := pageRequestOrEmpty pageRequest in
  entries <- kvIterator pfx (Key req) (Reverse req) ;;
  match paginateLoop onResult (Offset req) (Limit req) (CountTotal req)
          entries 0 [] acc0 with
  | inl err => ret (inl err)
  | inr (nextKey, acc) =>
      if CountTotal req then
        total <- kvScopeSize pfx ;;
        ret (inr ({| NextKey := nextKey; Total := Some total |}, acc))
      else ret (inr ({| NextKey := nextKey; Total := None |}, acc))
  end.

(** ** Requests and responses *)

Record QueryGrantsRequest := mkQueryGrantsRequest {
  Granter : string;
  Grantee : string;
  MsgTypeUrl : string;
  Pagination : option PageRequest
}.

Record QueryGrantsResponse {P : PayloadTypes} := mkQueryGrantsResponse {
  Grants_ : list Grant;
  Pagination_ : option PageResponse
}.

Record QueryIssuedGrantsRequest := mkQueryIssuedGrantsRequest {
  IG_Granter : string;
  IG_Pagination : option PageRequest
}.

Record QueryIssuedGrantsResponse {P : PayloadTypes} := mkQueryIssuedGrantsResponse {
  IG_Grants : list GrantAuthorization;
  IG_PageResponse : option PageResponse
}.

Record QueryReceivedGrantsRequest := mkQueryReceivedGrantsRequest {
  RG_Grantee : string;
  RG_Pagination : option PageRequest
}.

Record QueryReceivedGrantsResponse {P : PayloadTypes} := mkQueryReceivedGrantsResponse {
  RG_Grants : list GrantAuthorization;
  RG_PageResponse : option PageResponse
}.

(** A handler returns a response pointer and an error, either of which may
    be nil. *)
Definition Reply (A : Type) : Type := (option A * option error)%type.

(** ** The handlers *)

(** The callback of [Grants]. *)
Definition grantsOnResult {P : PayloadTypes} {K : SDK} : OnResult (list Grant) :=
  fun key value accumulate authorizations =>
    match unmarshalAuthorization value with
    | inl err => inl err
    | inr auth =>
        let auth1 := GetAuthorization auth in
        if accumulate then
          match auth1 with
          | None => inl (StatusError Internal "can't protomarshal <nil>")
          | Some msg =>
              match NewAnyWithValue (Some msg) with
              | inl err => inl (StatusError Internal (errorString err))
              | inr authorizationAny =>
                  inr (true,
                       authorizations ++
                       [ {| Authorization := authorizationAny;
                            Expiration := Expiration auth |} ])
              end
          end
        else inr (true, authorizations)
    end.

(** The callback of [IssuedGrants] and of [ReceivedGrants], which are the
    same closure. *)
Definition grantAuthorizationOnResult {P : PayloadTypes} {K : SDK}
  : OnResult (list GrantAuthorization) :=
  fun key value accumulate grants =>
    match unmarshalAuthorization value with
    | inl err => inl err
    | inr auth =>
        let auth1 := GetAuthorization auth in
        if accumulate then
          match NewAnyWithValue auth1 with
          | inl err => inl (StatusError Internal (errorString err))
          | inr any =>
              let '(grantee, granter) := addressesFromGrantStoreKey key in
              inr (true,
                   grants ++
                   [ {| GA_Granter := AccAddressString granter;
                        GA_Grantee := AccAddressString grantee;
                        GA_Authorization := any;
                        GA_Expiration := Expiration auth |} ])
          end
        else inr (true, grants)
    end.

Definition isEmptyString (s : string) : bool :=
  match s with
  | EmptyString => true
  | String _ _ => false
  end.

(** [Grants] implements the Query/Grants gRPC method. *)
Definition Grants {P : PayloadTypes} {K : SDK} (req : option QueryGrantsRequest)
  : M (Reply QueryGrantsResponse) :=
  match req with
  | None => ret (None, Some (StatusError InvalidArgument "empty request"))
  | Some req =>
      match AccAddressFromBech32 (Granter req) with
      | inl err => ret (None, Some err)
      | inr granter =>
          match AccAddressFromBech32 (Grantee req) with
          | inl err => ret (None, Some err)
          | inr grantee =>
              let key := grantStoreKey grantee granter EmptyString in
              if negb (isEmptyString (MsgTypeUrl req)) then
                r <- GetCleanAuthorization grantee granter (MsgTypeUrl req) ;;
                let '(authorization, expiration) := r in
                match authorization with
                | None =>
                    ret (None,
                         Some (StatusError NotFound
                                 ("no authorization found for " ++
                                  MsgTypeUrl req ++ " type")%string))
                | Some a =>
                    match NewAnyWithValue (Some a) with
                    | inl err =>
                        ret (None, Some (StatusError Internal (errorString err)))
                    | inr authorizationAny =>
                        ret (Some {| Grants_ :=
                                       [ {| Authorization := authorizationAny;
                                            Expiration := expiration |} ];
                                     Pagination_ := None |},
                             None)
                    end
                end
              else
                r <- FilteredPaginate key (Pagination req) grantsOnResult [] ;;
                match r with
                | inl err => ret (None, Some err)
                | inr (pageRes, authorizations) =>
                    ret (Some {| Grants_ := authorizations;
                                 Pagination_ := Some pageRes |},
                         None)
                end
          end
      end
  end.

(** [IssuedGrants] implements the Query/IssuedGrants gRPC method. *)
Definition IssuedGrants {P : PayloadTypes} {K : SDK} (req : option QueryIssuedGrantsRequest)
  : M (Reply QueryIssuedGrantsResponse) :=
  match req with
  | None => ret (None, Some (StatusError InvalidArgument "empty request"))
  | Some req =>
      match AccAddressFromBech32 (IG_Granter req) with
      | inl err => ret (None, Some err)
      | inr granter =>
          r <- FilteredPaginate (grantStoreKey [] granter EmptyString)
                 (IG_Pagination req) grantAuthorizationOnResult [] ;;
          match r with
          | inl err => ret (None, Some err)
          | inr (pageRes, grants) =>
              ret (Some {| IG_Grants := grants;
                           IG_PageResponse := Some pageRes |},
                   None)
          end
      end
  end.

(** [ReceivedGrants] implements the Query/ReceivedGrants gRPC method. *)
Definition ReceivedGrants {P : PayloadTypes} {K : SDK} (req : option QueryReceivedGrantsRequest)
  : M (Reply QueryReceivedGrantsResponse) :=
  match req with
  | None => ret (None, Some (StatusError InvalidArgument "empty request"))
  | Some req =>
      match AccAddressFromBech32 (RG_Grantee req) with
      | inl err => ret (None, Some err)
      | inr grantee =>
          r <- FilteredPaginate (grantStoreKey grantee [] EmptyString)
                 (RG_Pagination req) grantAuthorizationOnResult [] ;;
          match r with
          | inl err => ret (None, Some err)
          | inr (pageRes, authorizations) =>
              ret (Some {| RG_Grants := authorizations;
                           RG_PageResponse := Some pageRes |},
                   None)
          end
      end
  end.

(** ** The callbacks read as list builders

    The three closures have one shape: unmarshal the value, and when the
    accumulate flag is set render the grant and append it.  [listCallback]
    is that shape and [renderAll] the list a traversal of only accumulated
    entries builds, the first error winning. *)

Section ListCallback.

Context {G V : Type}.
Variable decode : bytes -> error + G.
Variable render : bytes -> G -> error + V.

Definition listCallback : OnResult (list V) :=
  fun key value accumulate acc =>
    match decode value with
    | inl err => inl err
    | inr g =>
        if accumulate then
          match render key g with
          | inl err => inl err
          | inr x => inr (true, acc ++ [x])
          end
        else inr (true, acc)
    end.

Definition renderEntry (e : bytes * bytes) : error + V :=
  match decode (snd e) with
  | inl err => inl err
  | inr g => render (fst e) g
  end.

Fixpoint renderAll (entries : list (bytes * bytes)) : error + list V :=
  match entries with
  | [] => inr []
  | e :: rest =>
      match renderEntry e with
      | inl err => inl err
      | inr x =>
          match renderAll rest with
          | inl err => inl err
          | inr xs => inr (x :: xs)
          end
      end
  end.

End ListCallback.

(** How [Grants] renders an unmarshalled grant. *)
Definition renderGrant {P : PayloadTypes} {K : SDK} (key : bytes) (auth : Grant)
  : error + Grant :=
  match GetAuthorization auth with
  | None => inl (StatusError Internal "can't protomarshal <nil>")
  | Some msg =>
      match NewAnyWithValue (Some msg) with
      | inl err => inl (StatusError Internal (errorString err))
      | inr authorizationAny =>
          inr {| Authorization := authorizationAny;
                 Expiration := Expiration auth |}
      end
  end.

(** How [IssuedGrants] and [ReceivedGrants] render one. *)
Definition renderGrantAuthorization {P : PayloadTypes} {K : SDK}
    (key : bytes) (auth : Grant) : error + GrantAuthorization :=
  match NewAnyWithValue (GetAuthorization auth) with
  | inl err => inl (StatusError Internal (errorString err))
  | inr any =>
      inr {| GA_Granter := AccAddressString (snd (addressesFromGrantStoreKey key));
             GA_Grantee := AccAddressString (fst (addressesFromGrantStoreKey key));
             GA_Authorization := any;
             GA_Expiration := Expiration auth |}
  end.

(** The entries the engine hands to the callback when every callback call
    succeeds with a hit: all of them when a total is requested or no limit
    is set, the [offset] skipped ones and the [limit] of the page
    otherwise. *)
Definition visitRange (offset : nat) (limit : option nat) (countTotal : bool)
    (entries : list (bytes * bytes)) : list (bytes * bytes) :=
  if countTotal then entries
  else match limit with
       | None => entries
       | Some n => firstn (offset + n) entries
       end.

(** ** Following the cursor

    A client that asks for pages of one entry, passing each next key as the
    cursor of the next request, until the next key is empty.  [None] when
    [fuel] requests were not enough. *)
Definition pageOfOne (cursor : bytes) (reverse : bool) : PageRequest :=
  {| Key := cursor; Offset := 0; Limit := Some 1; CountTotal := false;
     Reverse := reverse |}.

Definition unboundedPage (reverse : bool) : PageRequest :=
  {| Key := []; Offset := 0; Limit := None; CountTotal := false;
     Reverse := reverse |}.

Fixpoint followPages {V : Type}
    (query : PageRequest -> error + (list V * bytes))
    (reverse : bool) (fuel : nat) (cursor : bytes) : option (error + list V) :=
  match fuel with
  | 0 => None
  | S fuel' =>
      match query (pageOfOne cursor reverse) with
      | inl err => Some (inl err)
      | inr (page, []) => Some (inr page)
      | inr (page, (_ :: _) as next) =>
          match followPages query reverse fuel' next with
          | None => None
          | Some (inl err) => Some (inl err)
          | Some (inr more) => Some (inr (page ++ more))
          end
      end
  end.

Definition nextKeyOf (page : option PageResponse) : bytes :=
  match page with
  | Some p => NextKey p
  | None => []
  end.

(** The three scans as functions of the page request, over one snapshot. *)
Definition grantsScan {P : PayloadTypes} {K : SDK}
    (ctx : Context) (granter grantee : string) (p : PageRequest)
  : error + (list Grant * bytes) :=
  match fst (Grants (Some {| Granter := granter; Grantee := grantee;
                             MsgTypeUrl := EmptyString; Pagination := Some p |}) ctx) with
  | (_, Some err) => inl err
  | (Some resp, None) => inr (Grants_ resp, nextKeyOf (Pagination_ resp))
  | (None, None) => inr ([], [])
  end.

Definition issuedScan {P : PayloadTypes} {K : SDK}
    (ctx : Context) (granter : string) (p : PageRequest)
  : error + (list GrantAuthorization * bytes) :=
  match fst (IssuedGrants (Some {| IG_Granter := granter;
                                   IG_Pagination := Some p |}) ctx) with
  | (_, Some err) => inl err
  | (Some resp, None) => inr (IG_Grants resp, nextKeyOf (IG_PageResponse resp))
  | (None, None) => inr ([], [])
  end.

Definition receivedScan {P : PayloadTypes} {K : SDK}
    (ctx : Context) (grantee : string) (p : PageRequest)
  : error + (list GrantAuthorization * bytes) :=
  match fst (ReceivedGrants (Some {| RG_Grantee := grantee;
                                     RG_Pagination := Some p |}) ctx) with
  | (_, Some err) => inl err
  | (Some resp, None) => inr (RG_Grants resp, nextKeyOf (RG_PageResponse resp))
  | (None, None) => inr ([], [])
  end.

(** The grants of a scan, without the next key. *)
Definition grantsOf {V : Type} (r : error + (list V * bytes)) : error + list V :=
  match r with
  | inl err => inl err
  | inr (l, _) => inr l
  end.

(** The scan a handler runs over the snapshot [s], as a function of the
    prefix and the page request. *)
Definition loopScan {G V : Type} (decode : bytes -> error + G)
    (render : bytes -> G -> error + V) (s : KVStore) (pfx : bytes)
    (p : PageRequest) : error + (list V * bytes) :=
  match paginateLoop (listCallback decode render) (Offset p) (Limit p)
          (CountTotal p) (storeIterate pfx (Key p) (Reverse p) s) 0 [] [] with
  | inl err => inl err
  | inr (nextKey, acc) => inr (acc, nextKey)
  end.


(** A record is undecodable when the codec rejects its value. *)
Definition undecodable {P : PayloadTypes} {K : SDK} (e : bytes * bytes) : Prop :=
  exists err, unmarshalAuthorization (snd e) = inl err.



(** The same for [Grants]. *)
Definition listableGrant {P : PayloadTypes} {K : SDK} (e : bytes * bytes) : Prop :=
  exists x, renderEntry unmarshalAuthorization renderGrant e = inr x.



(** The entries still to be visited once [numHits] hits were counted. *)
Definition remainingRange (offset : nat) (limit : option nat) (countTotal : bool)
    (numHits : nat) (entries : list (bytes * bytes)) : list (bytes * bytes) :=
  if countTotal then entries
  else match limit with
       | None => entries
       | Some n => firstn (offset + n - numHits) entries
       end.
(** A reply that is a response or an error, never both and never neither. *)
Definition answered {A : Type} (r : Reply A) : Prop :=
  (exists resp, r = (Some resp, None)) \/ (exists err, r = (None, Some err)).

(** The page response of a traversal cut after [n] entries: the key of the
    entry that follows them, and the number of entries when a total is
    requested. *)
Definition pageAfter (n : nat) (countTotal : bool)
    (entries : list (bytes * bytes)) : PageResponse :=
  {| NextKey := match skipn n entries with [] => [] | e :: _ => fst e end;
     Total := if countTotal then Some (List.length entries) else None |}.

(** The records of a traversal that unmarshal. *)
Definition decodable {P : PayloadTypes} {K : SDK} (e : bytes * bytes) : Prop :=
  exists g, unmarshalAuthorization (snd e) = inr g.


(** ** A concrete instance

    A small chain used to run the handlers: addresses are written as their
    bytes, a stored record is one expiration byte ([x00]: none) followed by
    the payload, and the payload is its type URL. *)

Module Sample.

#[export] Instance payloadTypes : PayloadTypes :=
  {| AuthorizationI := string; Any := string |}.

Definition parseAddress (s : string) : error + AccAddress :=
  match s with
  | EmptyString => inl (PlainError "empty address string is not allowed")
  | String _ _ => inr (list_byte_of_string s)
  end.

Definition unpackAny (a : string) : option string :=
  match a with
  | EmptyString => None
  | String _ _ => Some a
  end.

Definition packAny (v : option string) : error + string :=
  match v with
  | None => inl (PlainError "Expecting non nil value to create a new Any")
  | Some a => inr a
  end.

Definition grantOf (payload : string) (expiration : option Z) : Grant :=
  {| Authorization := payload; Expiration := expiration |}.

Definition unmarshalGrant (value : bytes) : error + Grant :=
  match value with
  | [] => inl (PlainError "unexpected EOF")
  | x00 :: payload => inr (grantOf (string_of_list_byte payload) None)
  | e :: payload =>
      inr (grantOf (string_of_list_byte payload) (Some (Z.of_N (Byte.to_N e))))
  end.

Lemma parseAddress_nonempty (s : string) (a : AccAddress) :
  parseAddress s = inr a -> a <> [].
Proof.
  destruct s as [|c s]; simpl; [discriminate|]. intros [= <-]. discriminate.
Qed.

#[export] Instance sdk : SDK :=
  {| AccAddressFromBech32 := parseAddress;
     AccAddressString := string_of_list_byte;
     GetCachedValue := unpackAny;
     NewAnyWithValue := packAny;
     cdcUnmarshal := unmarshalGrant;
     AccAddressFromBech32_nonempty := parseAddress_nonempty |}.

Definition alice : AccAddress := list_byte_of_string "a".
Definition bob : AccAddress := list_byte_of_string "b".

Definition record (expiration : byte) (payload : string) : bytes :=
  expiration :: list_byte_of_string payload.

(** Bob granted alice two message types, the second expired at time 5;
    alice granted bob one. *)
Definition chain : KVStore :=
  [ (grantStoreKey alice bob "/send", record x00 "/send");
    (grantStoreKey alice bob "/vote", record x05 "/vote");
    (grantStoreKey bob alice "/send", record x00 "/send") ].

(** The same chain with two records that do not unmarshal. *)
Definition brokenChain : KVStore :=
  [ (grantStoreKey alice bob "/send", record x00 "/send");
    (grantStoreKey alice bob "/vote", []);
    (grantStoreKey bob alice "/send", []) ].

Definition ctxAt (s : KVStore) (now : Z) : Context :=
  {| store := s; blockTime := now; accesses := [] |}.

End Sample.
(** More stores for the concrete instance. *)

Module SampleMore.

Import Sample.

(** Bob granted alice two message types; the record of the second
    unmarshals, but its payload is nil and cannot be packed. *)
Definition nilPayloadChain : KVStore :=
  [ (grantStoreKey alice bob "/send", record x00 "/send");
    (grantStoreKey alice bob "/vote", record x00 EmptyString) ].

Definition firstOfTwo : PageRequest :=
  {| Key := []; Offset := 0; Limit := Some 1; CountTotal := true;
     Reverse := false |}.

(** The second entry alone: the first one is skipped for the offset. *)
Definition secondAlone : PageRequest :=
  {| Key := []; Offset := 1; Limit := Some 1; CountTotal := false;
     Reverse := false |}.

(** One entry from the cursor of the second grant of bob to alice on. *)
Definition fromSecond : PageRequest :=
  {| Key := grantStoreKey alice bob "/vote"; Offset := 0; Limit := Some 1;
     CountTotal := true; Reverse := false |}.


End SampleMore.


(** * Properties *)

(** ** The key codec *)

Section KeyCodecFacts.


Lemma hasPrefix_true_iff (p k : bytes) :
  hasPrefix p k = true <-> exists s, k = p ++ s.
Proof.
  revert k. induction p as [|x p IH]; intros k; simpl.
  - split; [intros _; now exists k | reflexivity].
  - destruct k as [|y k].
    + split; [discriminate | intros [s Hs]; discriminate].
    + rewrite andb_true_iff, IH. split.
      * intros [Hxy [s ->]]. apply Byte.byte_dec_bl in Hxy. subst. now exists s.
      * intros [s Hs]. injection Hs as -> ->. split.
        -- now apply Byte.byte_dec_lb.
        -- now exists s.
Qed.





Lemma grantStoreKey_empty_type (g r : AccAddress) (t : string) :
  grantStoreKey g r t = grantStoreKey g r EmptyString ++ list_byte_of_string t.
Proof.
  unfold grantStoreKey. simpl. now rewrite app_nil_r, <- app_assoc.
Qed.







Lemma hasPrefix_trans (p q k : bytes) :
  hasPrefix p q = true -> hasPrefix q k = true -> hasPrefix p k = true.
Proof.
  rewrite !hasPrefix_true_iff. intros [s1 ->] [s2 ->].
  exists (s1 ++ s2). now rewrite app_assoc.
Qed.

(** Two prefixes of one key are comparable. *)
Lemma hasPrefix_comparable (p q k : bytes) :
  hasPrefix p k = true -> hasPrefix q k = true ->
  hasPrefix p q = true \/ hasPrefix q p = true.
Proof.
  revert q k. induction p as [|x p IH]; intros q k Hp Hq; [now left|].
  destruct q as [|y q]; [now right|].
  destruct k as [|z k]; [discriminate|]. simpl in *.
  apply andb_true_iff in Hp, Hq. destruct Hp as [Hxz Hp], Hq as [Hyz Hq].
  apply Byte.byte_dec_bl in Hxz, Hyz. subst.
  rewrite (Byte.byte_dec_lb eq_refl). simpl. eauto.
Qed.

(** Whatever the layout of the key, the prefix of one granter and the prefix
    of one grantee cannot both select exactly their grants, as soon as there
    is a second granter and a second grantee: one of the two prefixes
    extends the other and inherits its keys. *)
Lemma one_sided_prefixes_not_both_exact
    (encode : AccAddress -> AccAddress -> string -> bytes)
    (issuedPrefix receivedPrefix : bytes)
    (G G' R R' : AccAddress) (t : string) :
  G <> G' -> R <> R' ->
  (forall g r, hasPrefix issuedPrefix (encode g r t) = true <-> r = R) ->
  (forall g r, hasPrefix receivedPrefix (encode g r t) = true <-> g = G) ->
  False.
Proof.
  intros HG HR Hissued Hreceived.
  destruct (hasPrefix_comparable issuedPrefix receivedPrefix (encode G R t))
    as [H|H].
  - now apply Hissued.
  - now apply Hreceived.
  - apply HR. symmetry. apply (Hissued G R').
    apply (hasPrefix_trans _ _ _ H). now apply Hreceived.
  - apply HG. symmetry. apply (Hreceived G' R).
    apply (hasPrefix_trans _ _ _ H). now apply Hissued.
Qed.


End KeyCodecFacts.

(** ** The order of the keys and the store *)

Section StoreFacts.

Lemma bytes_ltb_irrefl (a : bytes) : bytes_ltb a a = false.
Proof.
  induction a as [|x a IH]; simpl; [reflexivity|].
  rewrite N.ltb_irrefl, N.eqb_refl, IH. reflexivity.
Qed.

Lemma bytes_ltb_asym (a b : bytes) :
  bytes_ltb a b = true -> bytes_ltb b a = false.
Proof.
  revert b. induction a as [|x a IH]; intros [|y b]; simpl; try easy.
  intros H. apply orb_true_iff in H. destruct H as [H | H].
  - apply N.ltb_lt in H.
    apply orb_false_iff. split.
    + apply N.ltb_ge. lia.
    + apply andb_false_iff. left. apply N.eqb_neq. lia.
  - apply andb_true_iff in H. destruct H as [E H]. apply N.eqb_eq in E.
    rewrite E, N.ltb_irrefl, N.eqb_refl. simpl. now apply IH.
Qed.

Lemma bytes_leb_refl (a : bytes) : bytes_leb a a = true.
Proof. unfold bytes_leb. now rewrite bytes_ltb_irrefl. Qed.

Lemma bytes_eqb_eq (a b : bytes) : bytes_eqb a b = true <-> a = b.
Proof.
  unfold bytes_eqb. destruct (list_eq_dec byte_eq_dec a b); split; congruence.
Qed.

Lemma storeGet_In (s : KVStore) (k v : bytes) :
  storeGet s k = Some v -> In (k, v) s.
Proof.
  induction s as [|[k' v'] s IH]; simpl; [discriminate|].
  destruct (bytes_eqb k' k) eqn:E.
  - apply bytes_eqb_eq in E. intros [= ->]. subst. now left.
  - intros H. right. now apply IH.
Qed.

Lemma sorted_filter (p : bytes * bytes -> bool) (s : KVStore) :
  wfStore s -> wfStore (filter p s).
Proof.
  unfold wfStore. induction s as [|e s IH]; simpl; intros H; [constructor|].
  apply StronglySorted_inv in H. destruct H as [Hs Hall].
  destruct (p e); simpl.
  - constructor; [now apply IH|].
    rewrite Forall_forall in *. intros k Hk. apply Hall.
    apply in_map_iff in Hk. destruct Hk as [x [<- Hx]].
    apply filter_In in Hx. apply in_map. tauto.
  - now apply IH.
Qed.

(** In a sorted store the entries before an entry have smaller keys and the
    entries after it larger ones. *)
Lemma sorted_split (l1 l2 : KVStore) (e : bytes * bytes) :
  wfStore (l1 ++ e :: l2) ->
  Forall (fun x => bytes_lt (fst x) (fst e)) l1 /\
  Forall (fun x => bytes_lt (fst e) (fst x)) l2.
Proof.
  unfold wfStore. induction l1 as [|a l1 IH]; simpl; intros H.
  - split; [constructor|].
    apply StronglySorted_inv in H. destruct H as [_ H].
    rewrite Forall_forall in *. intros x Hx. apply H. now apply in_map.
  - apply StronglySorted_inv in H. destruct H as [Hs Ha].
    destruct (IH Hs) as [H1 H2]. split; [|assumption].
    constructor; [|assumption].
    rewrite Forall_forall in Ha. apply Ha.
    rewrite map_app. apply in_or_app. right. now left.
Qed.

Lemma filter_none (p : bytes * bytes -> bool) (l : KVStore) :
  Forall (fun x => p x = false) l -> filter p l = [].
Proof.
  induction 1 as [|x l Hx _ IH]; simpl; [reflexivity|]. now rewrite Hx.
Qed.

Lemma filter_all (p : bytes * bytes -> bool) (l : KVStore) :
  Forall (fun x => p x = true) l -> filter p l = l.
Proof.
  induction 1 as [|x l Hx _ IH]; simpl; [reflexivity|]. now rewrite Hx, IH.
Qed.

Lemma filter_from (l1 l2 : KVStore) (e : bytes * bytes) :
  wfStore (l1 ++ e :: l2) ->
  filter (fun x => bytes_leb (fst e) (fst x)) (l1 ++ e :: l2) = e :: l2.
Proof.
  intros H. destruct (sorted_split _ _ _ H) as [H1 H2].
  rewrite filter_app. simpl. rewrite bytes_leb_refl.
  rewrite (filter_none _ l1), (filter_all _ l2); [reflexivity | |].
  - eapply Forall_impl; [|exact H2]. intros x Hx. unfold bytes_leb.
    now rewrite (bytes_ltb_asym _ _ Hx).
  - eapply Forall_impl; [|exact H1]. intros x Hx. unfold bytes_leb.
    now rewrite Hx.
Qed.

Lemma filter_upto (l1 l2 : KVStore) (e : bytes * bytes) :
  wfStore (l1 ++ e :: l2) ->
  filter (fun x => bytes_leb (fst x) (fst e)) (l1 ++ e :: l2) = l1 ++ [e].
Proof.
  intros H. destruct (sorted_split _ _ _ H) as [H1 H2].
  rewrite filter_app. simpl. rewrite bytes_leb_refl.
  rewrite (filter_all _ l1), (filter_none _ l2); [reflexivity | |].
  - eapply Forall_impl; [|exact H2]. intros x Hx. unfold bytes_leb.
    now rewrite Hx.
  - eapply Forall_impl; [|exact H1]. intros x Hx. unfold bytes_leb.
    now rewrite (bytes_ltb_asym _ _ Hx).
Qed.

(** Resuming at the key of an entry of a traversal yields that entry and
    the ones after it. *)
Lemma storeIterate_resume (pfx : bytes) (reverse : bool) (s : KVStore)
    (before after : list (bytes * bytes)) (e : bytes * bytes) :
  wfStore s -> fst e <> [] ->
  storeIterate pfx [] reverse s = before ++ e :: after ->
  storeIterate pfx (fst e) reverse s = e :: after.
Proof.
  intros Hwf Hne. unfold storeIterate.
  pose proof (sorted_filter (fun x => hasPrefix pfx (fst x)) s Hwf) as Hs.
  destruct (fst e) as [|b k] eqn:Ek; [congruence|]. rewrite <- Ek. clear Ek Hne b k.
  destruct reverse; intros E.
  - apply (f_equal (@rev _)) in E. rewrite rev_involutive, rev_app_distr in E.
    simpl in E. rewrite <- app_assoc in E. simpl in E.
    rewrite E in Hs |- *. rewrite (filter_upto _ _ _ Hs).
    now rewrite rev_app_distr, rev_involutive.
  - rewrite E in Hs |- *. now apply filter_from.
Qed.

Lemma storeIterate_In (pfx start : bytes) (reverse : bool) (s : KVStore)
    (e : bytes * bytes) :
  In e (storeIterate pfx start reverse s) -> In e s /\ hasPrefix pfx (fst e) = true.
Proof.
  unfold storeIterate. intros H.
  destruct reverse; [apply in_rev in H|]; destruct start;
    repeat (apply filter_In in H; destruct H as [H ?]); tauto.
Qed.

End StoreFacts.

(** ** The pagination loop *)

Section LoopFacts.

Context {G V : Type}.
Variable decode : bytes -> error + G.
Variable render : bytes -> G -> error + V.

Lemma paginateLoop_ext {St : Type} (f g : OnResult St) :
  (forall k v b acc, f k v b acc = g k v b acc) ->
  forall offset limit countTotal entries numHits nextKey acc,
    paginateLoop f offset limit countTotal entries numHits nextKey acc =
    paginateLoop g offset limit countTotal entries numHits nextKey acc.
Proof.
  intros E offset limit countTotal entries.
  induction entries as [|[k v] rest IH]; intros; simpl; [reflexivity|].
  rewrite !E.
  destruct (pageFull offset limit numHits), countTotal; try reflexivity.
  - destruct (g k v false acc) as [|[? ?]]; [reflexivity | apply IH].
  - destruct (g k v (Nat.leb offset numHits) acc) as [|[? ?]];
      [reflexivity | apply IH].
  - destruct (g k v (Nat.leb offset numHits) acc) as [|[? ?]];
      [reflexivity | apply IH].
Qed.

Lemma listCallback_eq (k v : bytes) (b : bool) (acc : list V) :
  listCallback decode render k v b acc =
  match decode v with
  | inl err => inl err
  | inr g =>
      if b then
        match render k g with
        | inl err => inl err
        | inr x => inr (true, acc ++ [x])
        end
      else inr (true, acc)
  end.
Proof. reflexivity. Qed.

(** Without an offset and without a limit the loop builds [renderAll] of
    the traversal. *)
Lemma paginateLoop_unbounded (countTotal : bool) (entries : list (bytes * bytes))
    (numHits : nat) (nextKey : bytes) (acc : list V) :
  paginateLoop (listCallback decode render) 0 None countTotal entries
    numHits nextKey acc =
  match renderAll decode render entries with
  | inl err => inl err
  | inr xs => inr (nextKey, acc ++ xs)
  end.
Proof.
  revert numHits acc.
  induction entries as [|[k v] rest IH]; intros; simpl.
  - now rewrite app_nil_r.
  - rewrite listCallback_eq. unfold renderEntry. simpl.
    destruct (decode v) as [err|g]; [reflexivity|].
    destruct (render k g) as [err|x]; [reflexivity|].
    rewrite IH.
    destruct (renderAll decode render rest) as [err|xs]; [reflexivity|].
    rewrite <- app_assoc. reflexivity.
Qed.

(** A page of one entry holds the first entry of the traversal; its next
    key is the key of the second. *)
Lemma paginateLoop_page_of_one (e : bytes * bytes) (rest : list (bytes * bytes)) :
  paginateLoop (listCallback decode render) 0 (Some 1) false (e :: rest) 0 [] [] =
  match renderEntry decode render e with
  | inl err => inl err
  | inr x => inr (match rest with [] => [] | e' :: _ => fst e' end, [x])
  end.
Proof.
  destruct e as [k v]. simpl. rewrite listCallback_eq. unfold renderEntry. simpl.
  destruct (decode v) as [err|g]; [reflexivity|].
  destruct (render k g) as [err|x]; [reflexivity|].
  destruct rest as [|[k' v'] rest]; reflexivity.
Qed.

Lemma remainingRange_cons (offset : nat) (limit : option nat) (countTotal : bool)
    (numHits : nat) (e : bytes * bytes) (rest : list (bytes * bytes))
    (Q : bytes * bytes -> Prop) :
  Exists Q (remainingRange offset limit countTotal numHits (e :: rest)) ->
  ~ Q e ->
  (pageFull offset limit numHits = true -> countTotal = true) /\
  Exists Q (remainingRange offset limit countTotal
              (if pageFull offset limit numHits then numHits else S numHits)
              rest).
Proof.
  unfold remainingRange, pageFull. intros H Hne.
  destruct countTotal.
  - split; [reflexivity|]. apply Exists_cons in H. destruct H; tauto.
  - destruct limit as [n|].
    + destruct (Nat.leb (offset + n) numHits) eqn:Ef.
      * apply Nat.leb_le in Ef.
        replace (offset + n - numHits) with 0 in H by lia. inversion H.
      * apply Nat.leb_gt in Ef. split; [discriminate|].
        replace (offset + n - numHits) with (S (offset + n - S numHits)) in H
          by lia.
        simpl in H. apply Exists_cons in H. destruct H; tauto.
    + split; [discriminate|]. apply Exists_cons in H. destruct H; tauto.
Qed.

(** [visitRange] is what the loop visits: with a callback that records the
    entries it is handed and always reports a hit, the loop ends with the
    visited range. *)
Lemma visitRange_visited (offset : nat) (limit : option nat) (countTotal : bool)
    (entries : list (bytes * bytes)) :
  exists nextKey,
    paginateLoop (fun k v (_ : bool) acc => inr (true, acc ++ [(k, v)]))
      offset limit countTotal entries 0 [] []
    = inr (nextKey, visitRange offset limit countTotal entries).
Proof.
  assert (Hgen : forall numHits nextKey acc,
            exists nextKey',
              paginateLoop (fun k v (_ : bool) acc => inr (true, acc ++ [(k, v)]))
                offset limit countTotal entries numHits nextKey acc
              = inr (nextKey',
                     acc ++ remainingRange offset limit countTotal numHits entries)).
  { unfold remainingRange.
    induction entries as [|[k v] rest IH]; intros numHits nextKey acc.
    - simpl. exists nextKey.
      destruct countTotal; [|destruct limit; [rewrite firstn_nil|]];
        now rewrite app_nil_r.
    - simpl. destruct (pageFull offset limit numHits) eqn:Ef.
      + destruct limit as [n|]; [|discriminate]. simpl in Ef.
        apply Nat.leb_le in Ef. destruct countTotal.
        * destruct (IH numHits
                      (match nextKey with [] => k | _ :: _ => nextKey end)
                      (acc ++ [(k, v)])) as [nk E].
          exists nk. rewrite E, <- app_assoc. reflexivity.
        * eexists. replace (offset + n - numHits) with 0 by lia.
          now rewrite app_nil_r.
      + destruct (IH (S numHits) nextKey (acc ++ [(k, v)])) as [nk E].
        exists nk. rewrite E, <- app_assoc. simpl.
        destruct countTotal; [reflexivity|].
        destruct limit as [n|]; [|reflexivity]. simpl in Ef.
        apply Nat.leb_gt in Ef.
        replace (offset + n - numHits) with (S (offset + n - S numHits)) by lia.
        reflexivity. }
  destruct (Hgen 0 [] []) as [nk E]. exists nk. rewrite E.
  unfold remainingRange, visitRange. simpl.
  destruct countTotal; [reflexivity|].
  destruct limit; [now rewrite Nat.sub_0_r | reflexivity].
Qed.

(** An entry of the visited range that does not decode aborts the loop. *)
Lemma paginateLoop_undecodable (offset : nat) (limit : option nat)
    (countTotal : bool) (entries : list (bytes * bytes)) (numHits : nat)
    (nextKey : bytes) (acc : list V) :
  Exists (fun e => exists err, decode (snd e) = inl err)
    (remainingRange offset limit countTotal numHits entries) ->
  exists err,
    paginateLoop (listCallback decode render) offset limit countTotal entries
      numHits nextKey acc = inl err.
Proof.
  revert numHits nextKey acc.
  induction entries as [|[k v] rest IH]; intros numHits nextKey acc Hbad.
  - unfold remainingRange in Hbad.
    destruct countTotal; [|destruct limit as [n|]; [rewrite firstn_nil in Hbad|]];
      inversion Hbad.
  - simpl. rewrite !listCallback_eq.
    destruct (decode v) as [err|g] eqn:Ev.
    + destruct (pageFull offset limit numHits) eqn:Ef; [|now exists err].
      destruct countTotal; [now exists err|].
      unfold remainingRange in Hbad. destruct limit as [n|]; [|discriminate].
      simpl in Ef. apply Nat.leb_le in Ef.
      replace (offset + n - numHits) with 0 in Hbad by lia. inversion Hbad.
    + apply remainingRange_cons in Hbad.
      2:{ intros [err Herr]. simpl in Herr. congruence. }
      destruct Hbad as [Hct Hrest].
      destruct (pageFull offset limit numHits).
      * specialize (Hct eq_refl). subst countTotal. now apply IH.
      * destruct (Nat.leb offset numHits).
        -- destruct (render k g) as [err|x]; [now exists err|]. now apply IH.
        -- now apply IH.
Qed.

Lemma visitRange_undecodable (offset : nat) (limit : option nat)
    (countTotal : bool) (entries : list (bytes * bytes)) :
  Exists (fun e => exists err, decode (snd e) = inl err)
    (visitRange offset limit countTotal entries) ->
  exists err,
    paginateLoop (listCallback decode render) offset limit countTotal entries
      0 [] [] = inl err.
Proof.
  intros H. apply paginateLoop_undecodable.
  unfold visitRange in H. unfold remainingRange. destruct countTotal; [assumption|].
  destruct limit as [n|]; [|assumption]. now rewrite Nat.sub_0_r.
Qed.

(** When every entry renders, [renderAll] is the list of the renderings. *)
Lemma renderAll_Forall2 (entries : list (bytes * bytes)) (xs : list V) :
  renderAll decode render entries = inr xs <->
  Forall2 (fun e x => renderEntry decode render e = inr x) entries xs.
Proof.
  revert xs. induction entries as [|e rest IH]; intros xs; simpl.
  - split.
    + intros [= <-]. constructor.
    + intros H. inversion H. reflexivity.
  - split.
    + destruct (renderEntry decode render e) as [|x] eqn:Ex; [discriminate|].
      destruct (renderAll decode render rest) as [|ys] eqn:Er; [discriminate|].
      intros [= <-]. constructor; [assumption | now apply IH].
    + intros H. inversion H as [|e' x rest' ys Hx Hrest]; subst.
      rewrite Hx. apply IH in Hrest. now rewrite Hrest.
Qed.

Lemma renderAll_total (entries : list (bytes * bytes)) :
  Forall (fun e => exists x, renderEntry decode render e = inr x) entries ->
  exists xs, renderAll decode render entries = inr xs.
Proof.
  induction 1 as [|e rest [x Hx] _ [xs IH]]; simpl.
  - now exists [].
  - rewrite Hx, IH. now exists (x :: xs).
Qed.

End LoopFacts.

(** ** Scans over a snapshot *)

Section ScanFacts.

Context {G V : Type}.
Variable decode : bytes -> error + G.
Variable render : bytes -> G -> error + V.
Variable s : KVStore.
Variable pfx : bytes.

Lemma loopScan_unbounded (p : PageRequest) :
  Key p = [] -> Offset p = 0 -> Limit p = None ->
  loopScan decode render s pfx p =
  match renderAll decode render (storeIterate pfx [] (Reverse p) s) with
  | inl err => inl err
  | inr xs => inr (xs, [])
  end.
Proof.
  intros Hk Ho Hl. unfold loopScan. rewrite Hk, Ho, Hl, paginateLoop_unbounded.
  destruct (renderAll _ _ _); reflexivity.
Qed.

Lemma loopScan_undecodable (p : PageRequest) :
  Exists (fun e => exists err, decode (snd e) = inl err)
    (visitRange (Offset p) (Limit p) (CountTotal p)
       (storeIterate pfx (Key p) (Reverse p) s)) ->
  exists err, loopScan decode render s pfx p = inl err.
Proof.
  intros H. apply (visitRange_undecodable decode render) in H.
  destruct H as [err H]. exists err. unfold loopScan. now rewrite H.
Qed.

(** One request of the client, at a cursor from which the traversal is
    [e :: rest]. *)
Lemma loopScan_page_of_one (cursor : bytes) (reverse : bool)
    (e : bytes * bytes) (rest : list (bytes * bytes)) :
  storeIterate pfx cursor reverse s = e :: rest ->
  loopScan decode render s pfx (pageOfOne cursor reverse) =
  match renderEntry decode render e with
  | inl err => inl err
  | inr x => inr ([x], match rest with [] => [] | e' :: _ => fst e' end)
  end.
Proof.
  intros E. unfold loopScan, pageOfOne. simpl. rewrite E.
  rewrite paginateLoop_page_of_one.
  destruct (renderEntry decode render e); reflexivity.
Qed.

Hypothesis wf : wfStore s.
Hypothesis pfx_nonempty : pfx <> [].

Lemma scope_key_nonempty (start : bytes) (reverse : bool) (e : bytes * bytes) :
  In e (storeIterate pfx start reverse s) -> fst e <> [].
Proof.
  intros H. apply storeIterate_In in H. destruct H as [_ H].
  destruct pfx; [congruence|]. destruct (fst e); [discriminate | congruence].
Qed.

Lemma followPages_from (reverse : bool) (suffix before : list (bytes * bytes))
    (e : bytes * bytes) (cursor : bytes) (fuel : nat) :
  storeIterate pfx [] reverse s = before ++ e :: suffix ->
  storeIterate pfx cursor reverse s = e :: suffix ->
  List.length suffix < fuel ->
  followPages (loopScan decode render s pfx) reverse fuel cursor =
  Some (renderAll decode render (e :: suffix)).
Proof.
  revert before e cursor fuel.
  induction suffix as [|e' suffix IH]; intros before e cursor fuel Hall Hcur Hfuel;
    (destruct fuel as [|fuel]; [inversion Hfuel|]); simpl;
    rewrite (loopScan_page_of_one _ _ _ _ Hcur);
    destruct (renderEntry decode render e) as [err|x]; try reflexivity.
  assert (Hne : fst e' <> []).
  { apply (scope_key_nonempty [] reverse). rewrite Hall.
    apply in_or_app. right. right. now left. }
  destruct (fst e') as [|b k] eqn:Ek; [congruence|]. rewrite <- Ek.
  rewrite (IH (before ++ [e]) e' (fst e') fuel).
  - simpl.
    destruct (renderEntry decode render e') as [err|x']; [reflexivity|].
    destruct (renderAll decode render suffix) as [err|xs]; reflexivity.
  - now rewrite <- app_assoc.
  - apply (storeIterate_resume pfx reverse s (before ++ [e]) suffix e' wf).
    + rewrite Ek. discriminate.
    + now rewrite <- app_assoc.
  - simpl in Hfuel. lia.
Qed.

(** Following the cursor page by page rebuilds the unbounded scan. *)
Lemma followPages_complete (reverse : bool) (fuel : nat) :
  List.length s < fuel ->
  followPages (loopScan decode render s pfx) reverse fuel [] =
  Some (grantsOf (loopScan decode render s pfx (unboundedPage reverse))).
Proof.
  intros Hfuel.
  rewrite loopScan_unbounded by reflexivity. simpl.
  assert (Hlen : List.length (storeIterate pfx [] reverse s) <= List.length s).
  { unfold storeIterate. destruct reverse; [rewrite length_rev|];
      apply filter_length_le. }
  destruct (storeIterate pfx [] reverse s) as [|e suffix] eqn:E.
  - destruct fuel as [|fuel]; [inversion Hfuel|]. simpl.
    unfold loopScan, pageOfOne. simpl. rewrite E. reflexivity.
  - rewrite (followPages_from reverse suffix [] e [] fuel E E).
    + destruct (renderAll decode render (e :: suffix)); reflexivity.
    + simpl in Hlen. lia.
Qed.

End ScanFacts.

(** ** The handlers *)

Ltac destruct_loop :=
  match goal with
  | |- context [paginateLoop ?cb ?o ?l ?c ?es ?h ?nk ?acc] =>
      destruct (paginateLoop cb o l c es h nk acc) as [?|[? ?]]
  end.

Ltac destruct_total :=
  match goal with
  | |- context [CountTotal ?p] => destruct (CountTotal p)
  end.

Section Facade.

Context {P : PayloadTypes} {K : SDK}.

Lemma grantsOnResult_listCallback (k v : bytes) (b : bool) (acc : list Grant) :
  grantsOnResult k v b acc =
  listCallback unmarshalAuthorization renderGrant k v b acc.
Proof.
  unfold grantsOnResult, listCallback, renderGrant.
  destruct (unmarshalAuthorization v) as [err|auth]; [reflexivity|].
  destruct b; [|reflexivity].
  destruct (GetAuthorization auth) as [msg|]; [|reflexivity].
  destruct (NewAnyWithValue (Some msg)); reflexivity.
Qed.

Lemma grantAuthorizationOnResult_listCallback (k v : bytes) (b : bool)
    (acc : list GrantAuthorization) :
  grantAuthorizationOnResult k v b acc =
  listCallback unmarshalAuthorization renderGrantAuthorization k v b acc.
Proof.
  unfold grantAuthorizationOnResult, listCallback, renderGrantAuthorization.
  destruct (unmarshalAuthorization v) as [err|auth]; [reflexivity|].
  destruct b; [|reflexivity].
  destruct (NewAnyWithValue (GetAuthorization auth)); [reflexivity|].
  destruct (addressesFromGrantStoreKey k). reflexivity.
Qed.

(** The scan path of [Grants], once both addresses parsed. *)
Lemma Grants_scan (ctx : Context) (sR sG : string) (R G : AccAddress)
    (p : PageRequest) :
  AccAddressFromBech32 sR = inr R -> AccAddressFromBech32 sG = inr G ->
  grantsScan ctx sR sG p =
  loopScan unmarshalAuthorization renderGrant (store ctx) (grantStoreKey G R EmptyString) p.
Proof.
  intros HR HG. unfold grantsScan, Grants, loopScan, FilteredPaginate, bind, kvIterator.
  simpl. rewrite HR, HG. simpl.
  rewrite (paginateLoop_ext _ _ grantsOnResult_listCallback).
  destruct_loop; [reflexivity|]. destruct_total; reflexivity.
Qed.

Lemma IssuedGrants_scan (ctx : Context) (sR : string) (R : AccAddress)
    (p : PageRequest) :
  AccAddressFromBech32 sR = inr R ->
  issuedScan ctx sR p =
  loopScan unmarshalAuthorization renderGrantAuthorization (store ctx)
    (grantStoreKey [] R EmptyString) p.
Proof.
  intros HR. unfold issuedScan, IssuedGrants, loopScan, FilteredPaginate, bind, kvIterator.
  simpl. rewrite HR. simpl.
  rewrite (paginateLoop_ext _ _ grantAuthorizationOnResult_listCallback).
  destruct_loop; [reflexivity|]. destruct_total; reflexivity.
Qed.

Lemma ReceivedGrants_scan (ctx : Context) (sG : string) (G : AccAddress)
    (p : PageRequest) :
  AccAddressFromBech32 sG = inr G ->
  receivedScan ctx sG p =
  loopScan unmarshalAuthorization renderGrantAuthorization (store ctx)
    (grantStoreKey G [] EmptyString) p.
Proof.
  intros HG. unfold receivedScan, ReceivedGrants, loopScan, FilteredPaginate, bind, kvIterator.
  simpl. rewrite HG. simpl.
  rewrite (paginateLoop_ext _ _ grantAuthorizationOnResult_listCallback).
  destruct_loop; [reflexivity|]. destruct_total; reflexivity.
Qed.

(** A scan that fails returns the error and no response; one that succeeds
    returns the response and no error. *)
Lemma Grants_reply (ctx : Context) (sR sG : string) (p : PageRequest) :
  match grantsScan ctx sR sG p with
  | inl err =>
      fst (Grants (Some {| Granter := sR; Grantee := sG; MsgTypeUrl := EmptyString;
                           Pagination := Some p |}) ctx) = (None, Some err)
  | inr (l, nk) =>
      exists resp,
        fst (Grants (Some {| Granter := sR; Grantee := sG; MsgTypeUrl := EmptyString;
                             Pagination := Some p |}) ctx) = (Some resp, None)
        /\ Grants_ resp = l /\ nextKeyOf (Pagination_ resp) = nk
  end.
Proof.
  unfold grantsScan, Grants, FilteredPaginate, bind, kvIterator. simpl.
  destruct (AccAddressFromBech32 sR) as [err|R]; [reflexivity|].
  destruct (AccAddressFromBech32 sG) as [err|G]; [reflexivity|]. simpl.
  destruct_loop; simpl; [reflexivity|].
  destruct_total; simpl; eexists; (split; [reflexivity|]); split; reflexivity.
Qed.

Lemma IssuedGrants_reply (ctx : Context) (sR : string) (p : PageRequest) :
  match issuedScan ctx sR p with
  | inl err =>
      fst (IssuedGrants (Some {| IG_Granter := sR; IG_Pagination := Some p |}) ctx)
      = (None, Some err)
  | inr (l, nk) =>
      exists resp,
        fst (IssuedGrants (Some {| IG_Granter := sR; IG_Pagination := Some p |}) ctx)
        = (Some resp, None)
        /\ IG_Grants resp = l /\ nextKeyOf (IG_PageResponse resp) = nk
  end.
Proof.
  unfold issuedScan, IssuedGrants, FilteredPaginate, bind, kvIterator. simpl.
  destruct (AccAddressFromBech32 sR) as [err|R]; [reflexivity|]. simpl.
  destruct_loop; simpl; [reflexivity|].
  destruct_total; simpl; eexists; (split; [reflexivity|]); split; reflexivity.
Qed.

Lemma ReceivedGrants_reply (ctx : Context) (sG : string) (p : PageRequest) :
  match receivedScan ctx sG p with
  | inl err =>
      fst (ReceivedGrants (Some {| RG_Grantee := sG; RG_Pagination := Some p |}) ctx)
      = (None, Some err)
  | inr (l, nk) =>
      exists resp,
        fst (ReceivedGrants (Some {| RG_Grantee := sG; RG_Pagination := Some p |}) ctx)
        = (Some resp, None)
        /\ RG_Grants resp = l /\ nextKeyOf (RG_PageResponse resp) = nk
  end.
Proof.
  unfold receivedScan, ReceivedGrants, FilteredPaginate, bind, kvIterator. simpl.
  destruct (AccAddressFromBech32 sG) as [err|G]; [reflexivity|]. simpl.
  destruct_loop; simpl; [reflexivity|].
  destruct_total; simpl; eexists; (split; [reflexivity|]); split; reflexivity.
Qed.

End Facade.

Section Claims.

Context {P : PayloadTypes} {K : SDK}.

Lemma nil_pagination_Grants (sR sG t : string) (o : option PageRequest) (ctx : Context) :
  fst (Grants (Some {| Granter := sR; Grantee := sG; MsgTypeUrl := t;
                       Pagination := o |}) ctx) =
  fst (Grants (Some {| Granter := sR; Grantee := sG; MsgTypeUrl := t;
                       Pagination := Some (pageRequestOrEmpty o) |}) ctx).
Proof. destruct o; reflexivity. Qed.

Lemma nil_pagination_IssuedGrants (sR : string) (o : option PageRequest) (ctx : Context) :
  fst (IssuedGrants (Some {| IG_Granter := sR; IG_Pagination := o |}) ctx) =
  fst (IssuedGrants (Some {| IG_Granter := sR;
                             IG_Pagination := Some (pageRequestOrEmpty o) |}) ctx).
Proof. destruct o; reflexivity. Qed.

Lemma nil_pagination_ReceivedGrants (sG : string) (o : option PageRequest) (ctx : Context) :
  fst (ReceivedGrants (Some {| RG_Grantee := sG; RG_Pagination := o |}) ctx) =
  fst (ReceivedGrants (Some {| RG_Grantee := sG;
                               RG_Pagination := Some (pageRequestOrEmpty o) |}) ctx).
Proof. destruct o; reflexivity. Qed.

Lemma Grants_scan_fails (ctx : Context) (sR sG : string) (p : PageRequest) (err : error) :
  grantsScan ctx sR sG p = inl err ->
  fst (Grants (Some {| Granter := sR; Grantee := sG; MsgTypeUrl := EmptyString;
                       Pagination := Some p |}) ctx) = (None, Some err).
Proof. intros H. pose proof (Grants_reply ctx sR sG p) as R. now rewrite H in R. Qed.

Lemma IssuedGrants_scan_fails (ctx : Context) (sR : string) (p : PageRequest) (err : error) :
  issuedScan ctx sR p = inl err ->
  fst (IssuedGrants (Some {| IG_Granter := sR; IG_Pagination := Some p |}) ctx)
  = (None, Some err).
Proof. intros H. pose proof (IssuedGrants_reply ctx sR p) as R. now rewrite H in R. Qed.

Lemma ReceivedGrants_scan_fails (ctx : Context) (sG : string) (p : PageRequest) (err : error) :
  receivedScan ctx sG p = inl err ->
  fst (ReceivedGrants (Some {| RG_Grantee := sG; RG_Pagination := Some p |}) ctx)
  = (None, Some err).
Proof. intros H. pose proof (ReceivedGrants_reply ctx sG p) as R. now rewrite H in R. Qed.

(** C4. In every scan-based query (Grants without a message type,
    IssuedGrants, ReceivedGrants), with any page request or none, a visited
    record that fails to deserialize makes the operation return an error and
    a nil response: no list of grants and no page response come with it. *)
Theorem scan_error_returns_no_page (ctx : Context) (o : option PageRequest)
    (sR sG : string) (R G : AccAddress) :
  AccAddressFromBech32 sR = inr R ->
  AccAddressFromBech32 sG = inr G ->
  let p := pageRequestOrEmpty o in
  let visited pfx :=
    visitRange (Offset p) (Limit p) (CountTotal p)
      (storeIterate pfx (Key p) (Reverse p) (store ctx)) in
  (Exists undecodable (visited (grantStoreKey G R EmptyString)) ->
   exists err,
     fst (Grants (Some {| Granter := sR; Grantee := sG; MsgTypeUrl := EmptyString;
                          Pagination := o |}) ctx) = (None, Some err)) /\
  (Exists undecodable (visited (grantStoreKey [] R EmptyString)) ->
   exists err,
     fst (IssuedGrants (Some {| IG_Granter := sR; IG_Pagination := o |}) ctx)
     = (None, Some err)) /\
  (Exists undecodable (visited (grantStoreKey G [] EmptyString)) ->
   exists err,
     fst (ReceivedGrants (Some {| RG_Grantee := sG; RG_Pagination := o |}) ctx)
     = (None, Some err)).
Proof.
  intros HR HG p visited. subst visited p. repeat split; intros Hbad.
  - apply (loopScan_undecodable unmarshalAuthorization renderGrant) in Hbad.
    destruct Hbad as [err Herr]. exists err.
    rewrite nil_pagination_Grants. apply Grants_scan_fails.
    now rewrite (Grants_scan ctx sR sG R G _ HR HG).
  - apply (loopScan_undecodable unmarshalAuthorization renderGrantAuthorization) in Hbad.
    destruct Hbad as [err Herr]. exists err.
    rewrite nil_pagination_IssuedGrants. apply IssuedGrants_scan_fails.
    now rewrite (IssuedGrants_scan ctx sR R _ HR).
  - apply (loopScan_undecodable unmarshalAuthorization renderGrantAuthorization) in Hbad.
    destruct Hbad as [err Herr]. exists err.
    rewrite nil_pagination_ReceivedGrants. apply ReceivedGrants_scan_fails.
    now rewrite (ReceivedGrants_scan ctx sG G _ HG).
Qed.



(** C5. Each of Grants, IssuedGrants and ReceivedGrants answers a nil
    request with the status error InvalidArgument, and a request whose
    address string does not parse with the parser's own error, unchanged and
    without a status code; in both cases the context comes back as it went
    in: no store access was made, nothing else was done. *)
Theorem invalid_request_rejected_early (ctx : Context) :
  (Grants None ctx
   = (None, Some (StatusError InvalidArgument "empty request"), ctx) /\
   IssuedGrants None ctx
   = (None, Some (StatusError InvalidArgument "empty request"), ctx) /\
   ReceivedGrants None ctx
   = (None, Some (StatusError InvalidArgument "empty request"), ctx)) /\
  (forall req err,
      AccAddressFromBech32 (Granter req) = inl err ->
      Grants (Some req) ctx = (None, Some err, ctx)) /\
  (forall req granter err,
      AccAddressFromBech32 (Granter req) = inr granter ->
      AccAddressFromBech32 (Grantee req) = inl err ->
      Grants (Some req) ctx = (None, Some err, ctx)) /\
  (forall req err,
      AccAddressFromBech32 (IG_Granter req) = inl err ->
      IssuedGrants (Some req) ctx = (None, Some err, ctx)) /\
  (forall req err,
      AccAddressFromBech32 (RG_Grantee req) = inl err ->
      ReceivedGrants (Some req) ctx = (None, Some err, ctx)).
Proof.
  split; [repeat split|].
  split; [|split; [|split]].
  - intros req err H. unfold Grants. now rewrite H.
  - intros req granter err H1 H2. unfold Grants. now rewrite H1, H2.
  - intros req err H. unfold IssuedGrants. now rewrite H.
  - intros req err H. unfold ReceivedGrants. now rewrite H.
Qed.

Lemma isEmptyString_false (t : string) : t <> EmptyString -> isEmptyString t = false.
Proof. destruct t; [congruence | reflexivity]. Qed.

(** C9. With a non-empty [MsgTypeUrl] the reply of Grants and the context
    it leaves do not depend on the [Pagination] field of the request, and a
    successful reply holds exactly one grant and a nil page response. *)
Theorem exact_match_ignores_pagination (ctx : Context)
    (sR sG t : string) (o1 o2 : option PageRequest) :
  t <> EmptyString ->
  Grants (Some {| Granter := sR; Grantee := sG; MsgTypeUrl := t;
                  Pagination := o1 |}) ctx =
  Grants (Some {| Granter := sR; Grantee := sG; MsgTypeUrl := t;
                  Pagination := o2 |}) ctx /\
  (forall resp,
      fst (Grants (Some {| Granter := sR; Grantee := sG; MsgTypeUrl := t;
                           Pagination := o1 |}) ctx) = (Some resp, None) ->
      (exists g, Grants_ resp = [g]) /\ Pagination_ resp = None).
Proof.
  intros Ht. apply isEmptyString_false in Ht. split.
  - unfold Grants. simpl. now rewrite Ht.
  - intros resp. unfold Grants, bind. simpl. rewrite Ht. simpl.
    destruct (AccAddressFromBech32 sR) as [err|R]; [discriminate|].
    destruct (AccAddressFromBech32 sG) as [err|G]; [discriminate|].
    destruct (GetCleanAuthorization G R t ctx) as [[authorization expiration] ctx'].
    destruct authorization as [a|]; [|discriminate].
    destruct (NewAnyWithValue (Some a)) as [err|any]; [discriminate|].
    simpl. intros [= <-]. split; [eexists|]; reflexivity.
Qed.

(** The lookup on a stored record that unmarshals. *)
Lemma GetCleanAuthorization_stored (ctx : Context) (G R : AccAddress) (t : string)
    (value : bytes) (g : Grant) :
  storeGet (store ctx) (grantStoreKey G R t) = Some value ->
  cdcUnmarshal value = inr g ->
  fst (GetCleanAuthorization G R t ctx) =
  if expired (Expiration g) (blockTime ctx) then (None, None)
  else (GetAuthorization g, Expiration g).
Proof.
  intros Hget Hdec. unfold GetCleanAuthorization, bind, kvGet, getBlockTime. simpl.
  rewrite Hget. unfold unmarshalAuthorization. rewrite Hdec. simpl.
  destruct (expired (Expiration g) (blockTime ctx)); reflexivity.
Qed.

Lemma storeIterate_all_In (pfx : bytes) (reverse : bool) (s : KVStore)
    (e : bytes * bytes) :
  In e s -> hasPrefix pfx (fst e) = true -> In e (storeIterate pfx [] reverse s).
Proof.
  intros Hin Hp. unfold storeIterate.
  destruct reverse; [apply -> in_rev|]; apply filter_In; tauto.
Qed.

Lemma Forall2_In_l {A B : Type} (R : A -> B -> Prop) (l : list A) (l' : list B) (a : A) :
  Forall2 R l l' -> In a l -> exists b, In b l' /\ R a b.
Proof.
  induction 1 as [|x y l l' Hxy _ IH]; simpl; [tauto|].
  intros [<-|Hin].
  - exists y. tauto.
  - destruct (IH Hin) as [b [Hb Hab]]. exists b. tauto.
Qed.

Lemma pair_prefix_of_key (G R : AccAddress) (t : string) :
  hasPrefix (grantStoreKey G R EmptyString) (grantStoreKey G R t) = true.
Proof.
  apply hasPrefix_true_iff. exists (list_byte_of_string t).
  apply grantStoreKey_empty_type.
Qed.

Lemma renderGrant_Expiration (key : bytes) (g x : Grant) :
  renderGrant key g = inr x -> Expiration x = Expiration g.
Proof.
  unfold renderGrant. destruct (GetAuthorization g) as [msg|]; [|discriminate].
  destruct (NewAnyWithValue (Some msg)); [discriminate|]. now intros [= <-].
Qed.

(** C2. A stored grant whose expiration is set and is not after the block
    time is not found by Grants with its message type, whatever the page
    request, while Grants without a message type, scanning the same store
    with no cursor, no offset and no limit, returns a list that holds the
    grant's record with its expiration. *)
Theorem expired_grant_hidden_from_lookup_only (ctx : Context)
    (sR sG t : string) (R G : AccAddress) (value : bytes) (g : Grant) (e : Z)
    (o : option PageRequest) (pScan : PageRequest) :
  AccAddressFromBech32 sR = inr R ->
  AccAddressFromBech32 sG = inr G ->
  t <> EmptyString ->
  storeGet (store ctx) (grantStoreKey G R t) = Some value ->
  cdcUnmarshal value = inr g ->
  Expiration g = Some e ->
  (e <= blockTime ctx)%Z ->
  Key pScan = [] -> Offset pScan = 0 -> Limit pScan = None ->
  Forall listableGrant
    (storeIterate (grantStoreKey G R EmptyString) [] (Reverse pScan) (store ctx)) ->
  fst (Grants (Some {| Granter := sR; Grantee := sG; MsgTypeUrl := t;
                       Pagination := o |}) ctx)
  = (None, Some (StatusError NotFound
                   ("no authorization found for " ++ t ++ " type")%string)) /\
  exists resp x,
    fst (Grants (Some {| Granter := sR; Grantee := sG; MsgTypeUrl := EmptyString;
                         Pagination := Some pScan |}) ctx) = (Some resp, None) /\
    renderGrant (grantStoreKey G R t) g = inr x /\
    Expiration x = Some e /\
    In x (Grants_ resp).
Proof.
  intros HR HG Ht Hget Hdec Hexp Hle Hkey Hoff Hlim Hall. split.
  - unfold Grants, bind. simpl. rewrite HR, HG. simpl.
    rewrite (isEmptyString_false t Ht). simpl.
    pose proof (GetCleanAuthorization_stored ctx G R t value g Hget Hdec) as Hc.
    destruct (GetCleanAuthorization G R t ctx) as [[authorization expiration] ctx'].
    simpl in Hc. unfold expired in Hc. rewrite Hexp in Hc.
    apply Z.leb_le in Hle. rewrite Hle in Hc. now inversion Hc.
  - pose proof (Grants_reply ctx sR sG pScan) as Hreply.
    rewrite (Grants_scan ctx sR sG R G pScan HR HG) in Hreply.
    rewrite loopScan_unbounded in Hreply by assumption.
    destruct (renderAll_total _ _ _ Hall) as [xs Hxs].
    rewrite Hxs in Hreply. destruct Hreply as [resp [Hresp [Hgrants _]]].
    apply renderAll_Forall2 in Hxs.
    assert (Hin : In (grantStoreKey G R t, value)
                    (storeIterate (grantStoreKey G R EmptyString) [] (Reverse pScan) (store ctx))).
    { apply storeIterate_all_In; [now apply storeGet_In | apply pair_prefix_of_key]. }
    destruct (Forall2_In_l _ _ _ _ Hxs Hin) as [x [Hx Hrender]].
    unfold renderEntry, unmarshalAuthorization in Hrender. simpl in Hrender.
    rewrite Hdec in Hrender.
    exists resp, x. repeat split; try assumption.
    + rewrite (renderGrant_Expiration _ _ _ Hrender). assumption.
    + now rewrite Hgrants.
Qed.

Lemma followPages_ext {V : Type} (q1 q2 : PageRequest -> error + (list V * bytes))
    (reverse : bool) (fuel : nat) (cursor : bytes) :
  (forall p, q1 p = q2 p) ->
  followPages q1 reverse fuel cursor = followPages q2 reverse fuel cursor.
Proof.
  intros E. revert cursor. induction fuel as [|fuel IH]; intros cursor; simpl;
    [reflexivity|].
  rewrite E. destruct (q2 (pageOfOne cursor reverse)) as [err|[page [|b next]]];
    try reflexivity.
  now rewrite IH.
Qed.

Lemma followPages_fails {V : Type} (q : PageRequest -> error + (list V * bytes))
    (reverse : bool) (fuel : nat) (err : error) :
  (forall p, q p = inl err) ->
  followPages q reverse (S fuel) [] = Some (grantsOf (q (unboundedPage reverse))).
Proof. intros E. simpl. now rewrite !E. Qed.

Lemma grantStoreKey_nonempty (G R : AccAddress) (t : string) :
  G <> [] \/ R <> [] -> grantStoreKey G R t <> [].
Proof.
  unfold grantStoreKey, lengthPrefix.
  destruct G; [|discriminate]. destruct R; [|discriminate]. tauto.
Qed.

(** The prefix a handler builds from a parsed address is not empty. *)
Lemma parsed_prefix_nonempty (s : string) (a : AccAddress) :
  AccAddressFromBech32 s = inr a ->
  (forall R t, grantStoreKey a R t <> []) /\
  (forall G t, grantStoreKey G a t <> []).
Proof.
  intros H. apply AccAddressFromBech32_nonempty in H.
  split; intros; apply grantStoreKey_nonempty; tauto.
Qed.

(** C7. Over a store with ascending keys, a client of any of the three
    scans that asks for pages of one entry, passing each next key as the
    cursor of the next request until the next key is empty, ends after at
    most one request more than the store has entries, and the pages
    concatenated are the list that one request with no cursor and no limit
    returns, in the same order; when a record makes the unbounded scan
    fail, the client meets the same error. *)
Theorem pagination_completeness (ctx : Context) (sR sG : string) (reverse : bool) :
  wfStore (store ctx) ->
  let fuel := S (List.length (store ctx)) in
  followPages (grantsScan ctx sR sG) reverse fuel []
  = Some (grantsOf (grantsScan ctx sR sG (unboundedPage reverse))) /\
  followPages (issuedScan ctx sR) reverse fuel []
  = Some (grantsOf (issuedScan ctx sR (unboundedPage reverse))) /\
  followPages (receivedScan ctx sG) reverse fuel []
  = Some (grantsOf (receivedScan ctx sG (unboundedPage reverse))).
Proof.
  intros Hwf fuel. subst fuel.
  assert (HfR : forall err, AccAddressFromBech32 sR = inl err ->
            (forall p, grantsScan ctx sR sG p = inl err) /\
            (forall p, issuedScan ctx sR p = inl err)).
  { intros err H. split; intros p.
    - unfold grantsScan, Grants. simpl. now rewrite H.
    - unfold issuedScan, IssuedGrants. simpl. now rewrite H. }
  assert (HfG : forall err, AccAddressFromBech32 sG = inl err ->
            (forall R p, AccAddressFromBech32 sR = inr R ->
                         grantsScan ctx sR sG p = inl err) /\
            (forall p, receivedScan ctx sG p = inl err)).
  { intros err H. split; [intros R p HR | intros p].
    - unfold grantsScan, Grants. simpl. now rewrite HR, H.
    - unfold receivedScan, ReceivedGrants. simpl. now rewrite H. }
  split; [|split].
  - destruct (AccAddressFromBech32 sR) as [err|R] eqn:HR.
    { apply followPages_fails with (err := err). now apply HfR. }
    destruct (AccAddressFromBech32 sG) as [err|G] eqn:HG.
    { apply followPages_fails with (err := err). intros p.
      now apply (proj1 (HfG err eq_refl) R). }
    rewrite (followPages_ext _ _ _ _ _ (fun p => Grants_scan ctx sR sG R G p HR HG)).
    rewrite (Grants_scan ctx sR sG R G _ HR HG).
    apply followPages_complete;
      [assumption | apply (parsed_prefix_nonempty sG G HG) | lia].
  - destruct (AccAddressFromBech32 sR) as [err|R] eqn:HR.
    { apply followPages_fails with (err := err). now apply HfR. }
    rewrite (followPages_ext _ _ _ _ _ (fun p => IssuedGrants_scan ctx sR R p HR)).
    rewrite (IssuedGrants_scan ctx sR R _ HR).
    apply followPages_complete;
      [assumption | apply (parsed_prefix_nonempty sR R HR) | lia].
  - destruct (AccAddressFromBech32 sG) as [err|G] eqn:HG.
    { apply followPages_fails with (err := err). now apply HfG. }
    rewrite (followPages_ext _ _ _ _ _ (fun p => ReceivedGrants_scan ctx sG G p HG)).
    rewrite (ReceivedGrants_scan ctx sG G _ HG).
    apply followPages_complete;
      [assumption | apply (parsed_prefix_nonempty sG G HG) | lia].
Qed.






End Claims.

(** * The properties on the concrete instance *)

Module SampleRuns.

Import Sample SampleMore.

Ltac find_undecodable :=
  vm_compute;
  repeat first
    [ apply Exists_cons_hd; eexists; reflexivity
    | apply Exists_cons_tl ].

Ltac ascending := unfold wfStore; simpl; repeat constructor.

Lemma chain_ascending : wfStore chain.
Proof. ascending. Qed.





Lemma expired_grant_hidden_from_lookup_only_witness :
  fst (Grants (Some {| Granter := "b"; Grantee := "a"; MsgTypeUrl := "/vote";
                       Pagination := None |}) (ctxAt chain 10))
  = (None, Some (StatusError NotFound "no authorization found for /vote type")) /\
  exists resp x,
    fst (Grants (Some {| Granter := "b"; Grantee := "a"; MsgTypeUrl := EmptyString;
                         Pagination := Some (unboundedPage false) |})
           (ctxAt chain 10)) = (Some resp, None) /\
    renderGrant (grantStoreKey alice bob "/vote")
      (grantOf "/vote" (Some 5%Z)) = inr x /\
    Expiration x = Some 5%Z /\
    In x (Grants_ resp).
Proof.
  apply (expired_grant_hidden_from_lookup_only (K := sdk) (ctxAt chain 10)
           "b" "a" "/vote" bob alice (record x05 "/vote")
           (grantOf "/vote" (Some 5%Z)) 5 None
           (unboundedPage false));
    try reflexivity.
  - discriminate.
  - simpl. lia.
  - vm_compute. repeat constructor; eexists; reflexivity.
Defined.



Lemma scan_error_returns_no_page_witness :
  (exists err,
     fst (Grants (Some {| Granter := "b"; Grantee := "a"; MsgTypeUrl := EmptyString;
                          Pagination := None |}) (ctxAt brokenChain 0))
     = (None, Some err)) /\
  (exists err,
     fst (IssuedGrants (Some {| IG_Granter := "b"; IG_Pagination := None |})
            (ctxAt brokenChain 0)) = (None, Some err)) /\
  (exists err,
     fst (ReceivedGrants (Some {| RG_Grantee := "a"; RG_Pagination := None |})
            (ctxAt brokenChain 0)) = (None, Some err)).
Proof.
  destruct (scan_error_returns_no_page (K := sdk) (ctxAt brokenChain 0) None "b" "a"
              bob alice eq_refl eq_refl) as [H1 [H2 H3]].
  split; [apply H1 | split; [apply H2 | apply H3]]; find_undecodable.
Defined.

(** C5, as stated, fails: the empty granter string does not parse, and what
    Grants returns is the parser's error, not a status error with the code
    InvalidArgument. *)
Lemma address_error_is_not_invalid_argument :
  AccAddressFromBech32 EmptyString = inl (PlainError "empty address string is not allowed") /\
  fst (Grants (Some {| Granter := EmptyString; Grantee := "a"; MsgTypeUrl := EmptyString;
                       Pagination := None |}) (ctxAt chain 0))
  = (None, Some (PlainError "empty address string is not allowed")) /\
  ~ isStatus InvalidArgument (PlainError "empty address string is not allowed").
Proof.
  repeat split. intros [msg H]. discriminate.
Qed.

Lemma invalid_request_rejected_early_witness :
  Grants None (ctxAt chain 0)
  = (None, Some (StatusError InvalidArgument "empty request"), ctxAt chain 0) /\
  Grants (Some {| Granter := EmptyString; Grantee := "a"; MsgTypeUrl := EmptyString;
                  Pagination := None |}) (ctxAt chain 0)
  = (None, Some (PlainError "empty address string is not allowed"), ctxAt chain 0) /\
  Grants (Some {| Granter := "b"; Grantee := EmptyString; MsgTypeUrl := EmptyString;
                  Pagination := None |}) (ctxAt chain 0)
  = (None, Some (PlainError "empty address string is not allowed"), ctxAt chain 0) /\
  IssuedGrants (Some {| IG_Granter := EmptyString; IG_Pagination := None |}) (ctxAt chain 0)
  = (None, Some (PlainError "empty address string is not allowed"), ctxAt chain 0) /\
  ReceivedGrants (Some {| RG_Grantee := EmptyString; RG_Pagination := None |}) (ctxAt chain 0)
  = (None, Some (PlainError "empty address string is not allowed"), ctxAt chain 0).
Proof.
  destruct (invalid_request_rejected_early (K := sdk) (ctxAt chain 0))
    as [[H0 _] [H1 [H2 [H3 H4]]]].
  split; [exact H0|].
  split; [apply H1; reflexivity|].
  split; [apply (H2 _ bob); reflexivity|].
  split; [apply H3; reflexivity | apply H4; reflexivity].
Defined.

Lemma pagination_completeness_witness :
  followPages (grantsScan (ctxAt chain 0) "b" "a") false 4 []
  = Some (grantsOf (grantsScan (ctxAt chain 0) "b" "a" (unboundedPage false))) /\
  followPages (issuedScan (ctxAt chain 0) "b") false 4 []
  = Some (grantsOf (issuedScan (ctxAt chain 0) "b" (unboundedPage false))) /\
  followPages (receivedScan (ctxAt chain 0) "a") false 4 []
  = Some (grantsOf (receivedScan (ctxAt chain 0) "a" (unboundedPage false))).
Proof.
  apply (pagination_completeness (K := sdk) (ctxAt chain 0) "b" "a" false chain_ascending).
Defined.

Lemma exact_match_ignores_pagination_witness :
  Grants (Some {| Granter := "b"; Grantee := "a"; MsgTypeUrl := "/vote";
                  Pagination := None |}) (ctxAt chain 4) =
  Grants (Some {| Granter := "b"; Grantee := "a"; MsgTypeUrl := "/vote";
                  Pagination := Some (pageOfOne [] true) |}) (ctxAt chain 4) /\
  (forall resp,
      fst (Grants (Some {| Granter := "b"; Grantee := "a"; MsgTypeUrl := "/vote";
                           Pagination := None |}) (ctxAt chain 4))
      = (Some resp, None) ->
      (exists g, Grants_ resp = [g]) /\ Pagination_ resp = None).
Proof.
  apply (exact_match_ignores_pagination (K := sdk) (ctxAt chain 4) "b" "a" "/vote"
           None (Some (pageOfOne [] true))).
  discriminate.
Defined.


End SampleRuns.

(** * More of the handlers *)

(** ** What a page holds and which errors a scan can return *)

Section PageFacts.

Context {G V : Type}.
Variable decode : bytes -> error + G.
Variable render : bytes -> G -> error + V.

(** An error of the loop is the error the callback returned on one of the
    entries: the codec's, or the one of the rendering. *)
Lemma paginateLoop_error_origin (offset : nat) (limit : option nat)
    (countTotal : bool) (entries : list (bytes * bytes)) (numHits : nat)
    (nextKey : bytes) (acc : list V) (err : error) :
  paginateLoop (listCallback decode render) offset limit countTotal entries
    numHits nextKey acc = inl err ->
  Exists (fun e => decode (snd e) = inl err \/
                   exists g, decode (snd e) = inr g /\ render (fst e) g = inl err)
    entries.
Proof.
  revert numHits nextKey acc.
  induction entries as [|[k v] rest IH]; intros numHits nextKey acc;
    simpl; [discriminate|].
  rewrite !listCallback_eq.
  destruct (decode v) as [e|g] eqn:Ev.
  - destruct (pageFull offset limit numHits), countTotal; try discriminate;
      intros [= <-]; apply Exists_cons_hd; now left.
  - destruct (pageFull offset limit numHits).
    + destruct countTotal; [|discriminate].
      intros H. apply Exists_cons_tl. eapply IH. exact H.
    + destruct (Nat.leb offset numHits).
      * destruct (render k g) as [e|x] eqn:Er.
        -- intros [= <-]. apply Exists_cons_hd. right. now exists g.
        -- intros H. apply Exists_cons_tl. eapply IH. exact H.
      * intros H. apply Exists_cons_tl. eapply IH. exact H.
Qed.

(** Once the page is full and a total is requested, the remaining entries
    only have to decode: nothing is appended. *)
Lemma paginateLoop_counting (offset n : nat) (entries : list (bytes * bytes))
    (numHits : nat) (nextKey : bytes) (acc : list V) :
  offset + n <= numHits ->
  Forall (fun e => exists g, decode (snd e) = inr g) entries ->
  Forall (fun e => fst e <> []) entries ->
  paginateLoop (listCallback decode render) offset (Some n) true entries
    numHits nextKey acc =
  inr (match nextKey with
       | [] => match entries with [] => [] | e :: _ => fst e end
       | _ :: _ => nextKey
       end, acc).
Proof.
  intros Hfull Hdec Hkeys. revert nextKey.
  induction entries as [|[k v] rest IH]; intros nextKey; simpl.
  - now destruct nextKey.
  - apply Nat.leb_le in Hfull. rewrite Hfull. rewrite listCallback_eq.
    inversion Hdec as [|? ? [g Hg] Hdec']; subst.
    inversion Hkeys as [|? ? Hk Hkeys']; subst. simpl in Hg, Hk.
    rewrite Hg. rewrite (IH Hdec' Hkeys').
    destruct nextKey; [|reflexivity]. destruct k; [congruence | reflexivity].
Qed.

(** The page of a request with a limit: the first [offset] entries of the
    traversal are skipped and only have to decode, the [limit] entries after
    them are rendered in order, and the next key is the key of the entry
    that follows, empty when there is none. *)
Lemma paginateLoop_page (offset n : nat) (countTotal : bool)
    (entries : list (bytes * bytes)) (xs : list V) :
  Forall (fun e => exists g, decode (snd e) = inr g) (firstn offset entries) ->
  renderAll decode render (firstn n (skipn offset entries)) = inr xs ->
  (countTotal = true ->
   Forall (fun e => exists g, decode (snd e) = inr g)
     (skipn (offset + n) entries)) ->
  Forall (fun e => fst e <> []) entries ->
  paginateLoop (listCallback decode render) offset (Some n) countTotal
    entries 0 [] [] =
  inr (match skipn (offset + n) entries with [] => [] | e :: _ => fst e end, xs).
Proof.
  intros Hskip Hxs Hdec Hkeys.
  assert (Hgen : forall numHits acc ys,
            numHits <= offset + n ->
            Forall (fun e => exists g, decode (snd e) = inr g)
              (firstn (offset - numHits) entries) ->
            renderAll decode render
              (firstn (offset + n - numHits - (offset - numHits))
                 (skipn (offset - numHits) entries)) = inr ys ->
            (countTotal = true ->
             Forall (fun e => exists g, decode (snd e) = inr g)
               (skipn (offset + n - numHits) entries)) ->
            paginateLoop (listCallback decode render) offset (Some n) countTotal
              entries numHits [] acc =
            inr (match skipn (offset + n - numHits) entries with
                 | [] => []
                 | e :: _ => fst e
                 end, acc ++ ys)).
  { clear Hskip Hxs Hdec xs.
    induction entries as [|[k v] rest IH];
      intros numHits acc ys Hle Hskip Hys Hdec.
    - rewrite skipn_nil, firstn_nil in Hys. injection Hys as <-. simpl.
      now rewrite skipn_nil, app_nil_r.
    - inversion Hkeys as [|? ? Hk Hkeys']; subst.
      destruct (Nat.eq_dec numHits (offset + n)) as [->|Hne].
      + replace (offset + n - (offset + n)) with 0 in * by lia.
        replace (offset - (offset + n)) with 0 in Hys by lia.
        simpl in Hys. injection Hys as <-. rewrite app_nil_r.
        destruct countTotal.
        * rewrite paginateLoop_counting; auto.
        * simpl. now rewrite Nat.leb_refl.
      + assert (Hlt : Nat.leb (offset + n) numHits = false)
          by (apply Nat.leb_gt; lia).
        simpl. rewrite Hlt, listCallback_eq.
        replace (offset + n - numHits) with (S (offset + n - S numHits)) in *
          by lia.
        destruct (Nat.leb offset numHits) eqn:Eo.
        * apply Nat.leb_le in Eo.
          replace (offset - numHits) with 0 in * by lia.
          rewrite Nat.sub_0_r in Hys. simpl in Hys, Hdec.
          unfold renderEntry in Hys. simpl in Hys.
          destruct (decode v) as [e|g]; [discriminate|].
          destruct (render k g) as [e|x]; [discriminate|].
          destruct (renderAll decode render
                      (firstn (offset + n - S numHits) rest))
            as [e|ys'] eqn:Er; [discriminate|].
          injection Hys as <-.
          rewrite (IH Hkeys' (S numHits) (acc ++ [x]) ys'); auto; try lia.
          -- rewrite <- app_assoc. reflexivity.
          -- replace (offset - S numHits) with 0 by lia. constructor.
          -- replace (offset - S numHits) with 0 by lia.
             now rewrite Nat.sub_0_r.
        * apply Nat.leb_gt in Eo.
          replace (offset - numHits) with (S (offset - S numHits)) in * by lia.
          simpl in Hskip, Hys, Hdec.
          inversion Hskip as [|? ? [g Hg] Hskip']; subst. simpl in Hg.
          rewrite Hg.
          rewrite (IH Hkeys' (S numHits) acc ys); auto; lia. }
  specialize (Hgen 0 [] xs). rewrite !Nat.sub_0_r in Hgen.
  replace (offset + n - offset) with n in Hgen by lia.
  apply Hgen; auto. lia.
Qed.

(** Never more on the page than the limit. *)
Lemma paginateLoop_bound (offset n : nat) (countTotal : bool)
    (entries : list (bytes * bytes)) (numHits : nat)
    (nextKey nextKey' : bytes) (acc acc' : list V) :
  paginateLoop (listCallback decode render) offset (Some n) countTotal entries
    numHits nextKey acc = inr (nextKey', acc') ->
  List.length acc' <= List.length acc + (offset + n - Nat.max numHits offset).
Proof.
  revert numHits nextKey acc.
  induction entries as [|[k v] rest IH]; intros numHits nextKey acc; simpl.
  - intros [= _ <-]. lia.
  - rewrite !listCallback_eq. destruct (Nat.leb (offset + n) numHits) eqn:Ef.
    + destruct countTotal; [|intros [= _ <-]; lia].
      destruct (decode v); [discriminate|]. apply IH.
    + apply Nat.leb_gt in Ef.
      destruct (decode v) as [e|g]; [discriminate|].
      destruct (Nat.leb offset numHits) eqn:Eo.
      * apply Nat.leb_le in Eo.
        destruct (render k g) as [e|x]; [discriminate|].
        intros H. apply IH in H. rewrite length_app in H.
        change (List.length [x]) with 1 in H. lia.
      * apply Nat.leb_gt in Eo. intros H. apply IH in H. lia.
Qed.

Lemma renderAll_app (l1 l2 : list (bytes * bytes)) (xs1 xs2 : list V) :
  renderAll decode render l1 = inr xs1 ->
  renderAll decode render l2 = inr xs2 ->
  renderAll decode render (l1 ++ l2) = inr (xs1 ++ xs2).
Proof.
  intros H1 H2. apply renderAll_Forall2 in H1, H2. apply renderAll_Forall2.
  now apply Forall2_app.
Qed.

Lemma renderAll_rev (entries : list (bytes * bytes)) (xs : list V) :
  renderAll decode render entries = inr xs ->
  renderAll decode render (rev entries) = inr (rev xs).
Proof.
  revert xs. induction entries as [|e rest IH]; intros xs; simpl.
  - now intros [= <-].
  - destruct (renderEntry decode render e) as [|x] eqn:Ex; [discriminate|].
    destruct (renderAll decode render rest) as [|ys]; [discriminate|].
    intros [= <-]. simpl. apply renderAll_app; [now apply IH|].
    simpl. now rewrite Ex.
Qed.

End PageFacts.

(** ** The handlers, beyond the scans' completeness *)

Section MoreFacade.

Context {P : PayloadTypes} {K : SDK}.

Lemma renderGrant_error_internal (key : bytes) (g : Grant) (err : error) :
  renderGrant key g = inl err -> isStatus Internal err.
Proof.
  unfold renderGrant. destruct (GetAuthorization g) as [msg|].
  - destruct (NewAnyWithValue (Some msg)); [|discriminate].
    intros [= <-]. eexists. reflexivity.
  - intros [= <-]. eexists. reflexivity.
Qed.

Lemma renderGrantAuthorization_error_internal (key : bytes) (g : Grant)
    (err : error) :
  renderGrantAuthorization key g = inl err -> isStatus Internal err.
Proof.
  unfold renderGrantAuthorization.
  destruct (NewAnyWithValue (GetAuthorization g)); [|discriminate].
  intros [= <-]. eexists. reflexivity.
Qed.

Lemma Grants_reply_error (ctx : Context) (sR sG : string) (o : option PageRequest)
    (err : error) :
  fst (Grants (Some {| Granter := sR; Grantee := sG; MsgTypeUrl := EmptyString;
                       Pagination := o |}) ctx) = (None, Some err) ->
  grantsScan ctx sR sG (pageRequestOrEmpty o) = inl err.
Proof.
  rewrite nil_pagination_Grants.
  pose proof (Grants_reply ctx sR sG (pageRequestOrEmpty o)) as R.
  destruct (grantsScan ctx sR sG (pageRequestOrEmpty o)) as [e|[l nk]].
  - rewrite R. now intros [= ->].
  - destruct R as [resp [R _]]. rewrite R. discriminate.
Qed.

Lemma IssuedGrants_reply_error (ctx : Context) (sR : string)
    (o : option PageRequest) (err : error) :
  fst (IssuedGrants (Some {| IG_Granter := sR; IG_Pagination := o |}) ctx)
  = (None, Some err) ->
  issuedScan ctx sR (pageRequestOrEmpty o) = inl err.
Proof.
  rewrite nil_pagination_IssuedGrants.
  pose proof (IssuedGrants_reply ctx sR (pageRequestOrEmpty o)) as R.
  destruct (issuedScan ctx sR (pageRequestOrEmpty o)) as [e|[l nk]].
  - rewrite R. now intros [= ->].
  - destruct R as [resp [R _]]. rewrite R. discriminate.
Qed.

Lemma ReceivedGrants_reply_error (ctx : Context) (sG : string)
    (o : option PageRequest) (err : error) :
  fst (ReceivedGrants (Some {| RG_Grantee := sG; RG_Pagination := o |}) ctx)
  = (None, Some err) ->
  receivedScan ctx sG (pageRequestOrEmpty o) = inl err.
Proof.
  rewrite nil_pagination_ReceivedGrants.
  pose proof (ReceivedGrants_reply ctx sG (pageRequestOrEmpty o)) as R.
  destruct (receivedScan ctx sG (pageRequestOrEmpty o)) as [e|[l nk]].
  - rewrite R. now intros [= ->].
  - destruct R as [resp [R _]]. rewrite R. discriminate.
Qed.

Lemma loopScan_error_origin {G V : Type} (decode : bytes -> error + G)
    (render : bytes -> G -> error + V) (s : KVStore) (pfx : bytes)
    (p : PageRequest) (err : error) :
  (forall k g e, render k g = inl e -> isStatus Internal e) ->
  loopScan decode render s pfx p = inl err ->
  Exists (fun e => decode (snd e) = inl err)
    (storeIterate pfx (Key p) (Reverse p) s) \/
  isStatus Internal err.
Proof.
  intros Hr. unfold loopScan.
  destruct (paginateLoop _ _ _ _ _ _ _ _) as [e|[nk acc]] eqn:El;
    [|discriminate].
  intros [= ->]. apply paginateLoop_error_origin in El.
  apply Exists_exists in El. destruct El as [x [Hin [Hx|[g [_ Hx]]]]].
  - left. apply Exists_exists. now exists x.
  - right. eapply Hr. exact Hx.
Qed.

(** X1. Whatever the request and the context, each handler returns a
    response or an error, never both and never neither. *)
Theorem reply_is_response_or_error
    (reqG : option QueryGrantsRequest)
    (reqI : option QueryIssuedGrantsRequest)
    (reqR : option QueryReceivedGrantsRequest) (ctx : Context) :
  answered (fst (Grants reqG ctx)) /\
  answered (fst (IssuedGrants reqI ctx)) /\
  answered (fst (ReceivedGrants reqR ctx)).
Proof.
  assert (Herr : forall A (e : error), answered (A := A) (None, Some e))
    by (intros; right; now eexists).
  assert (Hok : forall A (r : A), answered (Some r, None))
    by (intros; left; now eexists).
  split; [|split].
  - unfold Grants, FilteredPaginate, bind, kvIterator, ret.
    destruct reqG as [req|]; [|apply Herr].
    destruct (AccAddressFromBech32 (Granter req)) as [e1|granter];
      [apply Herr|].
    destruct (AccAddressFromBech32 (Grantee req)) as [e2|grantee];
      [apply Herr|].
    destruct (negb (isEmptyString (MsgTypeUrl req))).
    + destruct (GetCleanAuthorization _ _ _ ctx) as [[[a|] e] ctx'];
        [|apply Herr].
      destruct (NewAnyWithValue (Some a)); [apply Herr | apply Hok].
    + simpl. destruct_loop; [apply Herr|]. destruct_total; apply Hok.
  - unfold IssuedGrants, FilteredPaginate, bind, kvIterator, ret.
    destruct reqI as [req|]; [|apply Herr].
    destruct (AccAddressFromBech32 (IG_Granter req)) as [e1|granter];
      [apply Herr|].
    simpl. destruct_loop; [apply Herr|]. destruct_total; apply Hok.
  - unfold ReceivedGrants, FilteredPaginate, bind, kvIterator, ret.
    destruct reqR as [req|]; [|apply Herr].
    destruct (AccAddressFromBech32 (RG_Grantee req)) as [e1|grantee];
      [apply Herr|].
    simpl. destruct_loop; [apply Herr|]. destruct_total; apply Hok.
Qed.

(** X2. Once both addresses parse, an error of Grants with a message type
    is the status NotFound naming that type, or the status Internal carrying
    the text of the error of the Any packing; it is never the codec's error
    and never InvalidArgument. *)
Theorem exact_path_errors (ctx : Context) (sR sG t : string)
    (o : option PageRequest) (R G : AccAddress) (err : error) :
  AccAddressFromBech32 sR = inr R ->
  AccAddressFromBech32 sG = inr G ->
  t <> EmptyString ->
  fst (Grants (Some {| Granter := sR; Grantee := sG; MsgTypeUrl := t;
                       Pagination := o |}) ctx) = (None, Some err) ->
  err = StatusError NotFound
          ("no authorization found for " ++ t ++ " type")%string \/
  exists a e, NewAnyWithValue (Some a) = inl e /\
              err = StatusError Internal (errorString e).
Proof.
  intros HR HG Ht. unfold Grants, bind. simpl. rewrite HR, HG. simpl.
  rewrite (isEmptyString_false t Ht). simpl.
  destruct (GetCleanAuthorization G R t ctx) as [[[a|] e] ctx']; simpl.
  - destruct (NewAnyWithValue (Some a)) as [e'|any] eqn:En; simpl;
      [|discriminate].
    intros [= <-]. right. now exists a, e'.
  - intros [= <-]. now left.
Qed.

(** X3. Once the addresses parse, an error of a scan (Grants without a
    message type, IssuedGrants, ReceivedGrants) is the codec's error on a
    record of the traversal, passed on as it is, or a status error with the
    code Internal. *)
Theorem scan_error_is_codec_or_internal (ctx : Context)
    (o : option PageRequest) (sR sG : string) (R G : AccAddress) (err : error) :
  AccAddressFromBech32 sR = inr R ->
  AccAddressFromBech32 sG = inr G ->
  let p := pageRequestOrEmpty o in
  let rejected pfx :=
    Exists (fun e => unmarshalAuthorization (snd e) = inl err)
      (storeIterate pfx (Key p) (Reverse p) (store ctx)) in
  (fst (Grants (Some {| Granter := sR; Grantee := sG; MsgTypeUrl := EmptyString;
                        Pagination := o |}) ctx) = (None, Some err) ->
   rejected (grantStoreKey G R EmptyString) \/ isStatus Internal err) /\
  (fst (IssuedGrants (Some {| IG_Granter := sR; IG_Pagination := o |}) ctx)
   = (None, Some err) ->
   rejected (grantStoreKey [] R EmptyString) \/ isStatus Internal err) /\
  (fst (ReceivedGrants (Some {| RG_Grantee := sG; RG_Pagination := o |}) ctx)
   = (None, Some err) ->
   rejected (grantStoreKey G [] EmptyString) \/ isStatus Internal err).
Proof.
  intros HR HG p rejected. subst rejected p. split; [|split]; intros H.
  - apply Grants_reply_error in H.
    rewrite (Grants_scan ctx sR sG R G _ HR HG) in H.
    eapply loopScan_error_origin; [|exact H].
    intros k g e. apply renderGrant_error_internal.
  - apply IssuedGrants_reply_error in H.
    rewrite (IssuedGrants_scan ctx sR R _ HR) in H.
    eapply loopScan_error_origin; [|exact H].
    intros k g e. apply renderGrantAuthorization_error_internal.
  - apply ReceivedGrants_reply_error in H.
    rewrite (ReceivedGrants_scan ctx sG G _ HG) in H.
    eapply loopScan_error_origin; [|exact H].
    intros k g e. apply renderGrantAuthorization_error_internal.
Qed.

Lemma storeIterate_no_prefix (pfx start : bytes) (reverse : bool) (s : KVStore) :
  Forall (fun e => hasPrefix pfx (fst e) = false) s ->
  storeIterate pfx start reverse s = [].
Proof.
  intros H. unfold storeIterate.
  rewrite (filter_none (fun e => hasPrefix pfx (fst e)) s H).
  destruct reverse, start; reflexivity.
Qed.

(** X4. A scan under whose prefix the store holds no key is not an error:
    once the addresses parse, the handler returns an empty list of grants
    with an empty next key, and a total of zero when a total is requested. *)
Theorem empty_scope_gives_empty_page (ctx : Context) (o : option PageRequest)
    (sR sG : string) (R G : AccAddress) :
  AccAddressFromBech32 sR = inr R ->
  AccAddressFromBech32 sG = inr G ->
  let none pfx := Forall (fun e => hasPrefix pfx (fst e) = false) (store ctx) in
  let page := Some (pageAfter 0 (CountTotal (pageRequestOrEmpty o)) []) in
  (none (grantStoreKey G R EmptyString) ->
   fst (Grants (Some {| Granter := sR; Grantee := sG; MsgTypeUrl := EmptyString;
                        Pagination := o |}) ctx)
   = (Some {| Grants_ := []; Pagination_ := page |}, None)) /\
  (none (grantStoreKey [] R EmptyString) ->
   fst (IssuedGrants (Some {| IG_Granter := sR; IG_Pagination := o |}) ctx)
   = (Some {| IG_Grants := []; IG_PageResponse := page |}, None)) /\
  (none (grantStoreKey G [] EmptyString) ->
   fst (ReceivedGrants (Some {| RG_Grantee := sG; RG_Pagination := o |}) ctx)
   = (Some {| RG_Grants := []; RG_PageResponse := page |}, None)).
Proof.
  intros HR HG none page. subst none page. split; [|split]; intros H.
  - unfold Grants, FilteredPaginate, bind, kvIterator, kvScopeSize, ret. simpl.
    rewrite HR, HG. simpl. rewrite !(storeIterate_no_prefix _ _ _ _ H). simpl.
    destruct_total; unfold logged; simpl;
      rewrite ?(filter_none _ _ H); reflexivity.
  - unfold IssuedGrants, FilteredPaginate, bind, kvIterator, kvScopeSize, ret.
    simpl. rewrite HR. simpl. rewrite !(storeIterate_no_prefix _ _ _ _ H). simpl.
    destruct_total; unfold logged; simpl;
      rewrite ?(filter_none _ _ H); reflexivity.
  - unfold ReceivedGrants, FilteredPaginate, bind, kvIterator, kvScopeSize, ret.
    simpl. rewrite HG. simpl. rewrite !(storeIterate_no_prefix _ _ _ _ H). simpl.
    destruct_total; unfold logged; simpl;
      rewrite ?(filter_none _ _ H); reflexivity.
Qed.

(** X5. The scans do not look at the clock: over the same store, Grants
    without a message type, IssuedGrants and ReceivedGrants reply the same
    whatever the block time of the context and whatever was read before, so
    a grant is listed the same before and after its expiration. *)
Theorem scans_ignore_block_time (ctx ctx' : Context) :
  store ctx = store ctx' ->
  (forall sR sG o,
      fst (Grants (Some {| Granter := sR; Grantee := sG;
                           MsgTypeUrl := EmptyString; Pagination := o |}) ctx)
      = fst (Grants (Some {| Granter := sR; Grantee := sG;
                             MsgTypeUrl := EmptyString; Pagination := o |}) ctx')) /\
  (forall req, fst (IssuedGrants req ctx) = fst (IssuedGrants req ctx')) /\
  (forall req, fst (ReceivedGrants req ctx) = fst (ReceivedGrants req ctx')).
Proof.
  intros Hs. split; [|split].
  - intros sR sG o.
    unfold Grants, FilteredPaginate, bind, kvIterator, kvScopeSize, ret. simpl.
    destruct (AccAddressFromBech32 sR); [reflexivity|].
    destruct (AccAddressFromBech32 sG); [reflexivity|]. simpl.
    rewrite Hs. destruct_loop; [reflexivity|].
    destruct_total; simpl; rewrite ?Hs; reflexivity.
  - intros [req|]; [|reflexivity].
    unfold IssuedGrants, FilteredPaginate, bind, kvIterator, kvScopeSize, ret.
    simpl.
    destruct (AccAddressFromBech32 (IG_Granter req)); [reflexivity|]. simpl.
    rewrite Hs. destruct_loop; [reflexivity|].
    destruct_total; simpl; rewrite ?Hs; reflexivity.
  - intros [req|]; [|reflexivity].
    unfold ReceivedGrants, FilteredPaginate, bind, kvIterator, kvScopeSize, ret.
    simpl.
    destruct (AccAddressFromBech32 (RG_Grantee req)); [reflexivity|]. simpl.
    rewrite Hs. destruct_loop; [reflexivity|].
    destruct_total; simpl; rewrite ?Hs; reflexivity.
Qed.

(** X6. The closures never filter and never rewrite what was accumulated:
    when one of them succeeds it reports a hit; with the accumulate flag set
    it has appended exactly one entry, carrying the expiration of the
    unmarshalled record, after the entries already there; with the flag
    unset the accumulated list is untouched. *)
Theorem closures_only_append (key value : bytes) (accumulate : bool) (g : Grant) :
  cdcUnmarshal value = inr g ->
  (forall acc hit acc',
      grantsOnResult key value accumulate acc = inr (hit, acc') ->
      hit = true /\
      if accumulate
      then exists x, acc' = acc ++ [x] /\ Expiration x = Expiration g
      else acc' = acc) /\
  (forall acc hit acc',
      grantAuthorizationOnResult key value accumulate acc = inr (hit, acc') ->
      hit = true /\
      if accumulate
      then exists x, acc' = acc ++ [x] /\ GA_Expiration x = Expiration g
      else acc' = acc).
Proof.
  intros Hg. split; intros acc hit acc'.
  - unfold grantsOnResult, unmarshalAuthorization. rewrite Hg.
    destruct accumulate.
    + destruct (GetAuthorization g) as [msg|]; [|discriminate].
      destruct (NewAnyWithValue (Some msg)); [discriminate|].
      intros [= <- <-]. split; [reflexivity|]. eexists. split; reflexivity.
    + intros [= <- <-]. now split.
  - unfold grantAuthorizationOnResult, unmarshalAuthorization. rewrite Hg.
    destruct accumulate.
    + destruct (NewAnyWithValue (GetAuthorization g)); [discriminate|].
      destruct (addressesFromGrantStoreKey key).
      intros [= <- <-]. split; [reflexivity|]. eexists. split; reflexivity.
    + intros [= <- <-]. now split.
Qed.

Lemma scope_keys_nonempty (pfx start : bytes) (reverse : bool) (s : KVStore) :
  pfx <> [] -> Forall (fun e => fst e <> []) (storeIterate pfx start reverse s).
Proof.
  intros H. apply Forall_forall. intros e He.
  now apply (scope_key_nonempty s pfx H start reverse).
Qed.

(** X7. The page of a scan with a limit.  Once the addresses parse, if the
    records skipped for the offset unmarshal, the [limit] records after them
    unmarshal and pack, and, when a total is requested, the records after
    the page unmarshal, then the handler succeeds: its grants are the records
    of the page in order, its next key is the key of the record that follows
    the page, empty when there is none, and its total, when requested, is
    the number of records under the prefix, whatever the cursor.  A record
    outside the page whose payload is nil or does not pack does not make the
    query fail. *)
Theorem page_holds_first_entries (ctx : Context) (p : PageRequest) (n : nat)
    (sR sG : string) (R G : AccAddress) :
  AccAddressFromBech32 sR = inr R ->
  AccAddressFromBech32 sG = inr G ->
  Limit p = Some n ->
  let scanned pfx := storeIterate pfx (Key p) (Reverse p) (store ctx) in
  let skipped pfx := Forall decodable (firstn (Offset p) (scanned pfx)) in
  let counted pfx :=
    CountTotal p = true ->
    Forall decodable (skipn (Offset p + n) (scanned pfx)) in
  let page pfx :=
    Some {| NextKey := match skipn (Offset p + n) (scanned pfx) with
                       | [] => []
                       | e :: _ => fst e
                       end;
            Total := if CountTotal p
                     then Some (List.length (storeIterate pfx [] false (store ctx)))
                     else None |} in
  (forall xs,
      skipped (grantStoreKey G R EmptyString) ->
      renderAll unmarshalAuthorization renderGrant
        (firstn n (skipn (Offset p) (scanned (grantStoreKey G R EmptyString))))
      = inr xs ->
      counted (grantStoreKey G R EmptyString) ->
      fst (Grants (Some {| Granter := sR; Grantee := sG;
                           MsgTypeUrl := EmptyString; Pagination := Some p |}) ctx)
      = (Some {| Grants_ := xs;
                 Pagination_ := page (grantStoreKey G R EmptyString) |}, None)) /\
  (forall xs,
      skipped (grantStoreKey [] R EmptyString) ->
      renderAll unmarshalAuthorization renderGrantAuthorization
        (firstn n (skipn (Offset p) (scanned (grantStoreKey [] R EmptyString))))
      = inr xs ->
      counted (grantStoreKey [] R EmptyString) ->
      fst (IssuedGrants (Some {| IG_Granter := sR; IG_Pagination := Some p |}) ctx)
      = (Some {| IG_Grants := xs;
                 IG_PageResponse := page (grantStoreKey [] R EmptyString) |},
         None)) /\
  (forall xs,
      skipped (grantStoreKey G [] EmptyString) ->
      renderAll unmarshalAuthorization renderGrantAuthorization
        (firstn n (skipn (Offset p) (scanned (grantStoreKey G [] EmptyString))))
      = inr xs ->
      counted (grantStoreKey G [] EmptyString) ->
      fst (ReceivedGrants (Some {| RG_Grantee := sG; RG_Pagination := Some p |}) ctx)
      = (Some {| RG_Grants := xs;
                 RG_PageResponse := page (grantStoreKey G [] EmptyString) |},
         None)).
Proof.
  intros HR HG Hl scanned skipped counted page.
  subst scanned skipped counted page.
  pose proof (parsed_prefix_nonempty sR R HR) as [_ NR].
  pose proof (parsed_prefix_nonempty sG G HG) as [NG _].
  split; [|split]; intros xs Hskip Hxs Hdec.
  - unfold Grants, FilteredPaginate, bind, kvIterator, kvScopeSize, ret. simpl.
    rewrite HR, HG. simpl.
    rewrite (paginateLoop_ext _ _ grantsOnResult_listCallback). rewrite Hl.
    rewrite (paginateLoop_page _ _ _ _ _ _ xs Hskip Hxs Hdec
               (scope_keys_nonempty _ _ _ _ (NG R EmptyString))).
    destruct (CountTotal p); reflexivity.
  - unfold IssuedGrants, FilteredPaginate, bind, kvIterator, kvScopeSize, ret.
    simpl. rewrite HR. simpl.
    rewrite (paginateLoop_ext _ _ grantAuthorizationOnResult_listCallback).
    rewrite Hl.
    rewrite (paginateLoop_page _ _ _ _ _ _ xs Hskip Hxs Hdec
               (scope_keys_nonempty _ _ _ _ (NR [] EmptyString))).
    destruct (CountTotal p); reflexivity.
  - unfold ReceivedGrants, FilteredPaginate, bind, kvIterator, kvScopeSize, ret.
    simpl. rewrite HG. simpl.
    rewrite (paginateLoop_ext _ _ grantAuthorizationOnResult_listCallback).
    rewrite Hl.
    rewrite (paginateLoop_page _ _ _ _ _ _ xs Hskip Hxs Hdec
               (scope_keys_nonempty _ _ _ _ (NG [] EmptyString))).
    destruct (CountTotal p); reflexivity.
Qed.

Lemma storeIterate_reverse (pfx : bytes) (s : KVStore) :
  storeIterate pfx [] true s = rev (storeIterate pfx [] false s).
Proof. reflexivity. Qed.

Lemma loopScan_reverse {G V : Type} (decode : bytes -> error + G)
    (render : bytes -> G -> error + V) (s : KVStore) (pfx : bytes) (xs : list V) :
  grantsOf (loopScan decode render s pfx (unboundedPage false)) = inr xs ->
  grantsOf (loopScan decode render s pfx (unboundedPage true)) = inr (rev xs).
Proof.
  rewrite !loopScan_unbounded by reflexivity.
  unfold unboundedPage. cbn [Reverse].
  rewrite storeIterate_reverse.
  destruct (renderAll decode render (storeIterate pfx [] false s)) as [e|ys] eqn:E;
    [discriminate|].
  cbn [grantsOf]. intros [= <-]. now rewrite (renderAll_rev _ _ _ _ E).
Qed.

(** X9. Direction.  When the unbounded ascending scan of a handler
    succeeds, so does the unbounded scan with [Reverse] set, and its grants
    are the same grants in the opposite order. *)
Theorem reverse_scan_reverses (ctx : Context) (sR sG : string) :
  (forall xs,
      grantsOf (grantsScan ctx sR sG (unboundedPage false)) = inr xs ->
      grantsOf (grantsScan ctx sR sG (unboundedPage true)) = inr (rev xs)) /\
  (forall xs,
      grantsOf (issuedScan ctx sR (unboundedPage false)) = inr xs ->
      grantsOf (issuedScan ctx sR (unboundedPage true)) = inr (rev xs)) /\
  (forall xs,
      grantsOf (receivedScan ctx sG (unboundedPage false)) = inr xs ->
      grantsOf (receivedScan ctx sG (unboundedPage true)) = inr (rev xs)).
Proof.
  split; [|split]; intros xs.
  - destruct (AccAddressFromBech32 sR) as [e|R] eqn:HR.
    { unfold grantsScan, Grants. simpl. rewrite HR. discriminate. }
    destruct (AccAddressFromBech32 sG) as [e|G] eqn:HG.
    { unfold grantsScan, Grants. simpl. rewrite HR, HG. discriminate. }
    rewrite !(Grants_scan ctx sR sG R G _ HR HG). apply loopScan_reverse.
  - destruct (AccAddressFromBech32 sR) as [e|R] eqn:HR.
    { unfold issuedScan, IssuedGrants. simpl. rewrite HR. discriminate. }
    rewrite !(IssuedGrants_scan ctx sR R _ HR). apply loopScan_reverse.
  - destruct (AccAddressFromBech32 sG) as [e|G] eqn:HG.
    { unfold receivedScan, ReceivedGrants. simpl. rewrite HG. discriminate. }
    rewrite !(ReceivedGrants_scan ctx sG G _ HG). apply loopScan_reverse.
Qed.

Lemma loopScan_bound {G V : Type} (decode : bytes -> error + G)
    (render : bytes -> G -> error + V) (s : KVStore) (pfx : bytes)
    (p : PageRequest) (n : nat) (xs : list V) (nk : bytes) :
  Limit p = Some n ->
  loopScan decode render s pfx p = inr (xs, nk) ->
  List.length xs <= n.
Proof.
  intros Hl. unfold loopScan. rewrite Hl.
  destruct (paginateLoop _ _ _ _ _ _ _ _) as [e|[nk' acc]] eqn:E;
    [discriminate|].
  intros [= <- _]. apply paginateLoop_bound in E.
  change (List.length (@nil V)) with 0 in E. lia.
Qed.

(** X10. A scan never returns more grants than the limit of its page
    request, whatever the store holds and whether or not a total is
    requested; this is unlike Grants with a message type, which returns its
    one grant whatever the limit. *)
Theorem page_within_limit (ctx : Context) (p : PageRequest) (n : nat)
    (sR sG : string) :
  Limit p = Some n ->
  (forall resp,
      fst (Grants (Some {| Granter := sR; Grantee := sG;
                           MsgTypeUrl := EmptyString; Pagination := Some p |}) ctx)
      = (Some resp, None) ->
      List.length (Grants_ resp) <= n) /\
  (forall resp,
      fst (IssuedGrants (Some {| IG_Granter := sR; IG_Pagination := Some p |}) ctx)
      = (Some resp, None) ->
      List.length (IG_Grants resp) <= n) /\
  (forall resp,
      fst (ReceivedGrants (Some {| RG_Grantee := sG; RG_Pagination := Some p |}) ctx)
      = (Some resp, None) ->
      List.length (RG_Grants resp) <= n).
Proof.
  intros Hl. split; [|split]; intros resp Hresp.
  - pose proof (Grants_reply ctx sR sG p) as Hr.
    destruct (grantsScan ctx sR sG p) as [e|[l nk]] eqn:Es.
    { rewrite Hr in Hresp. discriminate. }
    destruct Hr as [resp' [Hr [Hg _]]]. rewrite Hr in Hresp.
    injection Hresp as <-. rewrite Hg.
    destruct (AccAddressFromBech32 sR) as [e|R] eqn:HR.
    { unfold grantsScan, Grants in Es. simpl in Es. rewrite HR in Es. discriminate. }
    destruct (AccAddressFromBech32 sG) as [e|G] eqn:HG.
    { unfold grantsScan, Grants in Es. simpl in Es. rewrite HR, HG in Es.
      discriminate. }
    rewrite (Grants_scan ctx sR sG R G _ HR HG) in Es.
    eapply loopScan_bound; eassumption.
  - pose proof (IssuedGrants_reply ctx sR p) as Hr.
    destruct (issuedScan ctx sR p) as [e|[l nk]] eqn:Es.
    { rewrite Hr in Hresp. discriminate. }
    destruct Hr as [resp' [Hr [Hg _]]]. rewrite Hr in Hresp.
    injection Hresp as <-. rewrite Hg.
    destruct (AccAddressFromBech32 sR) as [e|R] eqn:HR.
    { unfold issuedScan, IssuedGrants in Es. simpl in Es. rewrite HR in Es.
      discriminate. }
    rewrite (IssuedGrants_scan ctx sR R _ HR) in Es.
    eapply loopScan_bound; eassumption.
  - pose proof (ReceivedGrants_reply ctx sG p) as Hr.
    destruct (receivedScan ctx sG p) as [e|[l nk]] eqn:Es.
    { rewrite Hr in Hresp. discriminate. }
    destruct Hr as [resp' [Hr [Hg _]]]. rewrite Hr in Hresp.
    injection Hresp as <-. rewrite Hg.
    destruct (AccAddressFromBech32 sG) as [e|G] eqn:HG.
    { unfold receivedScan, ReceivedGrants in Es. simpl in Es. rewrite HG in Es.
      discriminate. }
    rewrite (ReceivedGrants_scan ctx sG G _ HG) in Es.
    eapply loopScan_bound; eassumption.
Qed.

(** X11. A scan with no cursor, no offset and no limit walks its whole
    prefix: once the addresses parse, the handler returns one grant for each
    stored key under the prefix, in key order (descending with [Reverse]),
    and an empty next key; it fails, with the first error met, exactly when
    a record under the prefix does not unmarshal or does not pack. *)
Theorem unbounded_scan_lists_scope (ctx : Context) (p : PageRequest)
    (sR sG : string) (R G : AccAddress) :
  AccAddressFromBech32 sR = inr R ->
  AccAddressFromBech32 sG = inr G ->
  Key p = [] -> Offset p = 0 -> Limit p = None ->
  let scope pfx := storeIterate pfx [] (Reverse p) (store ctx) in
  let listing {V : Type} (r : error + list V) : error + (list V * bytes) :=
    match r with
    | inl err => inl err
    | inr xs => inr (xs, [])
    end in
  grantsScan ctx sR sG p
  = listing (renderAll unmarshalAuthorization renderGrant
               (scope (grantStoreKey G R EmptyString))) /\
  issuedScan ctx sR p
  = listing (renderAll unmarshalAuthorization renderGrantAuthorization
               (scope (grantStoreKey [] R EmptyString))) /\
  receivedScan ctx sG p
  = listing (renderAll unmarshalAuthorization renderGrantAuthorization
               (scope (grantStoreKey G [] EmptyString))).
Proof.
  intros HR HG Hk Ho Hl scope listing. subst scope listing. cbv beta.
  rewrite (Grants_scan ctx sR sG R G _ HR HG).
  rewrite (IssuedGrants_scan ctx sR R _ HR).
  rewrite (ReceivedGrants_scan ctx sG G _ HG).
  rewrite !loopScan_unbounded by assumption.
  repeat split.
Qed.

(** X12. Grants with a message type, once the addresses parse.  When the
    store has no record at the key of grantee, granter and type, the reply is
    the status NotFound naming the type.  When it has one that unmarshals, is
    not expired at the block time and whose payload packs, the reply is that
    one grant, with the packed payload and the stored expiration. *)
Theorem exact_match_lookup (ctx : Context) (sR sG t : string)
    (o : option PageRequest) (R G : AccAddress) :
  AccAddressFromBech32 sR = inr R ->
  AccAddressFromBech32 sG = inr G ->
  t <> EmptyString ->
  let reply :=
    fst (Grants (Some {| Granter := sR; Grantee := sG; MsgTypeUrl := t;
                         Pagination := o |}) ctx) in
  (storeGet (store ctx) (grantStoreKey G R t) = None ->
   reply = (None, Some (StatusError NotFound
                          ("no authorization found for " ++ t ++ " type")%string)))
  /\
  (forall value g a any,
      storeGet (store ctx) (grantStoreKey G R t) = Some value ->
      cdcUnmarshal value = inr g ->
      expired (Expiration g) (blockTime ctx) = false ->
      GetAuthorization g = Some a ->
      NewAnyWithValue (Some a) = inr any ->
      reply = (Some {| Grants_ := [ {| Authorization := any;
                                       Expiration := Expiration g |} ];
                       Pagination_ := None |}, None)).
Proof.
  intros HR HG Ht reply. subst reply. split.
  - intros Hget.
    unfold Grants, GetCleanAuthorization, bind, kvGet, ret. simpl.
    rewrite HR, HG. simpl. rewrite (isEmptyString_false t Ht). simpl.
    now rewrite Hget.
  - intros value g a any Hget Hdec Hlive Ha Hany.
    pose proof (GetCleanAuthorization_stored ctx G R t value g Hget Hdec) as Hc.
    rewrite Hlive, Ha in Hc.
    unfold Grants, bind. simpl. rewrite HR, HG. simpl.
    rewrite (isEmptyString_false t Ht). simpl.
    destruct (GetCleanAuthorization G R t ctx) as [[authorization expiration] ctx'].
    simpl in Hc. injection Hc as -> ->. now rewrite Hany.
Qed.

End MoreFacade.

(** * The further properties on the concrete instance *)

Module SampleChecks.

Import Sample SampleMore.

Lemma exact_path_errors_witness :
  fst (Grants (Some {| Granter := "b"; Grantee := "a"; MsgTypeUrl := "/vote";
                       Pagination := None |}) (ctxAt chain 10))
  = (None, Some (StatusError NotFound "no authorization found for /vote type"))
  /\
  (StatusError NotFound "no authorization found for /vote type"
   = StatusError NotFound ("no authorization found for " ++ "/vote" ++ " type")%string
   \/ exists a e, NewAnyWithValue (Some a) = inl e /\
                  StatusError NotFound "no authorization found for /vote type"
                  = StatusError Internal (errorString e)).
Proof.
  split; [reflexivity|].
  apply (exact_path_errors (K := sdk) (ctxAt chain 10) "b" "a" "/vote" None
           bob alice); try reflexivity.
  discriminate.
Defined.

Lemma scan_error_is_codec_or_internal_witness :
  Exists (fun e => unmarshalAuthorization (snd e)
                   = inl (PlainError "unexpected EOF"))
    (storeIterate (grantStoreKey alice bob EmptyString) [] false brokenChain)
  \/ isStatus Internal (PlainError "unexpected EOF").
Proof.
  apply (proj1 (scan_error_is_codec_or_internal (K := sdk)
                  (ctxAt brokenChain 0) None "b" "a" bob alice
                  (PlainError "unexpected EOF") eq_refl eq_refl)).
  reflexivity.
Defined.

Lemma empty_scope_gives_empty_page_witness :
  fst (IssuedGrants (Some {| IG_Granter := "c";
                             IG_Pagination := Some firstOfTwo |})
         (ctxAt chain 0))
  = (Some {| IG_Grants := []; IG_PageResponse := Some (pageAfter 0 true []) |},
     None).
Proof.
  apply (proj1 (proj2 (empty_scope_gives_empty_page (K := sdk)
                         (ctxAt chain 0) (Some firstOfTwo) "c" "a"
                         (list_byte_of_string "c") alice
                         eq_refl eq_refl))).
  repeat constructor.
Defined.

Lemma scans_ignore_block_time_witness :
  (forall sR sG o,
      fst (Grants (Some {| Granter := sR; Grantee := sG;
                           MsgTypeUrl := EmptyString; Pagination := o |})
             (ctxAt chain 0))
      = fst (Grants (Some {| Granter := sR; Grantee := sG;
                             MsgTypeUrl := EmptyString; Pagination := o |})
               (ctxAt chain 10))) /\
  (forall req, fst (IssuedGrants req (ctxAt chain 0))
               = fst (IssuedGrants req (ctxAt chain 10))) /\
  (forall req, fst (ReceivedGrants req (ctxAt chain 0))
               = fst (ReceivedGrants req (ctxAt chain 10))).
Proof.
  apply (scans_ignore_block_time (K := sdk) (ctxAt chain 0) (ctxAt chain 10)).
  reflexivity.
Defined.

Lemma closures_only_append_witness :
  grantsOnResult (grantStoreKey alice bob "/vote") (record x05 "/vote") true []
  = inr (true, [grantOf "/vote" (Some 5%Z)]) /\
  (true = true /\
   exists x, [grantOf "/vote" (Some 5%Z)] = [] ++ [x] /\
             Expiration x = Some 5%Z).
Proof.
  split; [reflexivity|].
  apply (proj1 (closures_only_append (K := sdk)
                  (grantStoreKey alice bob "/vote") (record x05 "/vote") true
                  (grantOf "/vote" (Some 5%Z)) eq_refl)
           [] true [grantOf "/vote" (Some 5%Z)]).
  reflexivity.
Defined.

Lemma page_holds_first_entries_witness :
  fst (Grants (Some {| Granter := "b"; Grantee := "a";
                       MsgTypeUrl := EmptyString;
                       Pagination := Some firstOfTwo |})
         (ctxAt nilPayloadChain 0))
  = (Some {| Grants_ := [grantOf "/send" None];
             Pagination_ :=
               Some {| NextKey := grantStoreKey alice bob "/vote";
                       Total := Some 2 |} |},
     None) /\
  fst (Grants (Some {| Granter := "b"; Grantee := "a";
                       MsgTypeUrl := EmptyString;
                       Pagination := Some fromSecond |})
         (ctxAt chain 0))
  = (Some {| Grants_ := [grantOf "/vote" (Some 5%Z)];
             Pagination_ := Some {| NextKey := []; Total := Some 2 |} |},
     None) /\
  fst (ReceivedGrants (Some {| RG_Grantee := "a";
                               RG_Pagination := Some secondAlone |})
         (ctxAt chain 0))
  = (Some {| RG_Grants :=
               [{| GA_Granter := "b"; GA_Grantee := "a";
                   GA_Authorization := "/vote"; GA_Expiration := Some 5%Z |}];
             RG_PageResponse := Some {| NextKey := []; Total := None |} |},
     None).
Proof.
  split; [|split].
  - apply (proj1 (page_holds_first_entries (K := sdk) (ctxAt nilPayloadChain 0)
                    firstOfTwo 1 "b" "a" bob alice eq_refl eq_refl eq_refl)
             [grantOf "/send" None]).
    + constructor.
    + reflexivity.
    + intros _. vm_compute. repeat constructor. eexists. reflexivity.
  - apply (proj1 (page_holds_first_entries (K := sdk) (ctxAt chain 0)
                    fromSecond 1 "b" "a" bob alice eq_refl eq_refl eq_refl)
             [grantOf "/vote" (Some 5%Z)]).
    + constructor.
    + reflexivity.
    + intros _. vm_compute. constructor.
  - apply (proj2 (proj2 (page_holds_first_entries (K := sdk)
                           (ctxAt chain 0) secondAlone 1 "a" "a"
                           alice alice eq_refl eq_refl eq_refl))).
    + vm_compute. repeat constructor. eexists. reflexivity.
    + reflexivity.
    + discriminate.
Defined.

Lemma reverse_scan_reverses_witness :
  grantsOf (grantsScan (ctxAt chain 0) "b" "a" (unboundedPage true))
  = inr (rev [grantOf "/send" None; grantOf "/vote" (Some 5%Z)]).
Proof.
  apply (proj1 (reverse_scan_reverses (K := sdk) (ctxAt chain 0) "b" "a")).
  reflexivity.
Defined.

Lemma page_within_limit_witness :
  exists resp,
    fst (Grants (Some {| Granter := "b"; Grantee := "a";
                         MsgTypeUrl := EmptyString;
                         Pagination := Some firstOfTwo |}) (ctxAt chain 0))
    = (Some resp, None) /\
    List.length (Grants_ resp) <= 1.
Proof.
  eexists. split; [reflexivity|].
  apply (proj1 (page_within_limit (K := sdk) (ctxAt chain 0) firstOfTwo 1
                  "b" "a" eq_refl)).
  reflexivity.
Defined.

Lemma unbounded_scan_lists_scope_witness :
  grantsScan (ctxAt chain 0) "b" "a" (unboundedPage true)
  = inr ([grantOf "/vote" (Some 5%Z); grantOf "/send" None], []).
Proof.
  apply (proj1 (unbounded_scan_lists_scope (K := sdk) (ctxAt chain 0)
                  (unboundedPage true) "b" "a" bob alice
                  eq_refl eq_refl eq_refl eq_refl eq_refl)).
Defined.

Lemma exact_match_lookup_witness :
  fst (Grants (Some {| Granter := "b"; Grantee := "a"; MsgTypeUrl := "/vote";
                       Pagination := None |}) (ctxAt chain 4))
  = (Some {| Grants_ := [grantOf "/vote" (Some 5%Z)]; Pagination_ := None |},
     None) /\
  fst (Grants (Some {| Granter := "b"; Grantee := "a"; MsgTypeUrl := "/stake";
                       Pagination := None |}) (ctxAt chain 4))
  = (None, Some (StatusError NotFound "no authorization found for /stake type")).
Proof.
  split.
  - refine (proj2 (exact_match_lookup (K := sdk) (ctxAt chain 4) "b" "a" "/vote"
                     None bob alice eq_refl eq_refl _)
              (record x05 "/vote") (grantOf "/vote" (Some 5%Z)) "/vote" "/vote"
              eq_refl eq_refl eq_refl eq_refl eq_refl).
    discriminate.
  - refine (proj1 (exact_match_lookup (K := sdk) (ctxAt chain 4) "b" "a" "/stake"
                     None bob alice eq_refl eq_refl _) eq_refl).
    discriminate.
Defined.

End SampleChecks.
